(** * cryp: envelope codec, file codec and directory walker

    A shallow embedding of the Go package [cryp] (enc.go and its decrypt
    counterpart).  The package's own functions ([generate32ByteKey],
    [Encrypt], [Decrypt], [EncryptFile], [DecryptFile], [EncryptDirFiles],
    [DecryptDirFiles]) are transcribed statement by statement.  What the
    package imports is modelled as follows.

    - [encoding/hex], [crypto/cipher]'s CFB mode, [aes.NewCipher]'s key-size
      check, [hmac.Equal], [io.ReadFull], [filepath.Walk] and the other
      [path/filepath] functions are written out.
    - The hash, key-derivation, block-cipher, compression and archive
      functions are the fields of a record [GoLib].  A theorem that relies on
      the contract of one of them states it as a hypothesis.
    - [crypto/rand] is the list of bytes the reader still yields.
    - [os] is an in-memory file system: a finite map from resolved paths to
      nodes.  Permission bits are recorded, not enforced, and no umask is
      applied; symbolic links are followed at the last component of a path
      only; closing a file does not fail; the clock stands still.
    - Writing progress messages to [LogOutput], and the timing around them,
      is left out: it touches nothing else.

    A Go [string] is a [string], a sequence of 8-bit characters; a [[]byte]
    is a list of bytes; [int], [int64] and [os.FileMode] values are in [Z]. *)

From Stdlib Require Import ZArith NArith List Bool Lia.
From Stdlib Require Import Strings.Byte Strings.Ascii Strings.String.
From stdpp Require Import base option list sorting strings gmap.

#[local] Open Scope string_scope.
#[local] Open Scope list_scope.

(** ** Bytes *)

(** Go's [[]byte]. *)
Abbreviation bytes := (list byte).

#[global] Instance byte_eq_decision : EqDecision byte := Byte.byte_eq_dec.

Definition byte_of_N (n : N) : byte :=
  match Byte.of_N n with Some b => b | None => x00 end.

(** [a ^ b] on bytes, bit by bit. *)
Definition xor_byte (a b : byte) : byte :=
  let '(a0, (a1, (a2, (a3, (a4, (a5, (a6, a7))))))) := Byte.to_bits a in
  let '(b0, (b1, (b2, (b3, (b4, (b5, (b6, b7))))))) := Byte.to_bits b in
  Byte.of_bits (xorb a0 b0, (xorb a1 b1, (xorb a2 b2, (xorb a3 b3,
               (xorb a4 b4, (xorb a5 b5, (xorb a6 b6, xorb a7 b7))))))).

(** The byte whose only set bit is bit [k] (0 is the least significant). *)
Definition bit_mask (k : nat) : byte := byte_of_N (N.shiftl 1 (N.of_nat k)).

Definition flip_bit (k : nat) (b : byte) : byte := xor_byte b (bit_mask k).

(** The buffer [l] with bit [k] of its [i]-th byte flipped. *)
Definition flip_bit_at (i k : nat) (l : bytes) : bytes :=
  match l !! i with
  | Some b => <[i := flip_bit k b]> l
  | None => l
  end.

(** The same on a Go string, which is a sequence of bytes. *)
Definition flip_char (k : nat) (c : ascii) : ascii :=
  ascii_of_byte (flip_bit k (byte_of_ascii c)).

Fixpoint flip_bit_in_string (i k : nat) (s : string) : string :=
  match s, i with
  | EmptyString, _ => EmptyString
  | String c s', 0 => String (flip_char k c) s'
  | String c s', S i' => String c (flip_bit_in_string i' k s')
  end.

(** ** Errors *)

Inductive errno :=
  EEXIST | ENOENT | ENOTDIR | ENOTEMPTY | EISDIR | ELOOP | ENOSPC | EINVAL | EBADF.

Inductive error :=
| errors_New (msg : string)
| hex_InvalidByteError (c : ascii)
| hex_ErrLength
| aes_KeySizeError (n : nat)
| io_EOF
| io_ErrUnexpectedEOF
| io_ErrShortWrite
| os_PathError (op : string) (path : list string) (e : errno)
| lib_error (pkg msg : string).

#[global] Instance errno_eq_decision : EqDecision errno.
Proof. solve_decision. Defined.

#[global] Instance error_eq_decision : EqDecision error.
Proof. solve_decision. Defined.

Inductive result (A : Type) :=
| Ok (a : A)
| Err (e : error).
Arguments Ok {A} a.
Arguments Err {A} e.

(** The errors the package itself creates. *)
Definition ErrInsufficientData : error := errors_New "insufficient data to decrypt".
Definition ErrSignatureMismatch : error := errors_New "signature does not match data".
Definition ErrInvalidFileType : error := errors_New "invalid file type".
Definition ErrInvalidFileName : error := errors_New "invalid file name, expected SHA-256 hash".

(** ** encoding/hex *)

Definition hextable : string := "0123456789abcdef".

Definition hex_digit (n : N) : ascii :=
  match String.get (N.to_nat n) hextable with
  | Some c => c
  | None => "0"%char
  end.

(** [dst[2i] = hextable[v>>4]; dst[2i+1] = hextable[v&0x0f]]. *)
Fixpoint hex_EncodeToString (src : bytes) : string :=
  match src with
  | [] => EmptyString
  | v :: src' =>
      String (hex_digit (N.shiftr (Byte.to_N v) 4))
        (String (hex_digit (N.land (Byte.to_N v) 15))
           (hex_EncodeToString src'))
  end.

(** Both letter cases are accepted. *)
Definition fromHexChar (c : ascii) : option N :=
  let n := N_of_ascii c in
  if (48 <=? n)%N && (n <=? 57)%N then Some (n - 48)%N
  else if (97 <=? n)%N && (n <=? 102)%N then Some (n - 97 + 10)%N
  else if (65 <=? n)%N && (n <=? 70)%N then Some (n - 65 + 10)%N
  else None.

(** [hex.DecodeString]: the bytes decoded so far and the error, if any.
    An invalid character is reported before an odd length. *)
Fixpoint hex_DecodeString (s : string) : bytes * option error :=
  match s with
  | EmptyString => ([], None)
  | String p EmptyString =>
      match fromHexChar p with
      | None => ([], Some (hex_InvalidByteError p))
      | Some _ => ([], Some hex_ErrLength)
      end
  | String p (String q s') =>
      match fromHexChar p, fromHexChar q with
      | None, _ => ([], Some (hex_InvalidByteError p))
      | Some _, None => ([], Some (hex_InvalidByteError q))
      | Some a, Some b =>
          let '(out, err) := hex_DecodeString s' in
          (byte_of_N (N.lor (N.shiftl a 4) b) :: out, err)
      end
  end.

(** ** regexp: [^[a-f0-9]{64}$] *)

Definition is_lower_hex (c : ascii) : bool :=
  let n := N_of_ascii c in
  ((97 <=? n)%N && (n <=? 102)%N) || ((48 <=? n)%N && (n <=? 57)%N).

Definition SignatureSize : nat := 32 * 2.

Definition sha256HexRegexp_MatchString (s : string) : bool :=
  (String.length s =? SignatureSize)%nat
  && forallb is_lower_hex (list_ascii_of_string s).

(** ** The imported packages

    [tar.Header], with the fields the package sets and reads. *)
Record Header := {
  hdr_Name : string;
  hdr_Mode : Z;
  hdr_Size : Z;
  hdr_ModTime : Z;
}.

(** What [gzip.NewReader] followed by [ioutil.ReadAll] yields: the header
    is rejected, or the bytes read and the error that ended the read. *)
Inductive gzip_stream :=
| gzip_bad_header (e : error)
| gzip_read (out : bytes) (e : option error).

(** What [tar.Reader.Next] followed by [io.Copy] from the reader yields:
    the header (nil at the end of the archive or on error) and the error of
    [Next]; then the body bytes of that entry and the error of reading them. *)
Record tar_entry := {
  next_hdr : option Header;
  next_err : option error;
  entry_body : bytes;
  entry_err : option error;
}.

Record GoLib := {
  (** [sha512.Sum512] *)
  sha512_Sum512 : bytes -> bytes;
  (** [scrypt.Key(password, salt, N, r, p, keyLen)] *)
  scrypt_Key : bytes -> bytes -> Z -> Z -> Z -> Z -> bytes * option error;
  (** the [Encrypt] method of the block [aes.NewCipher(key)] returns *)
  aes_encrypt_block : bytes -> bytes -> bytes;
  (** [hmac.New(sha256.New, key)], [Write(data)], [Sum(nil)] *)
  hmac_sha256 : bytes -> bytes -> bytes;
  (** a [gzip.Writer] at the given level, written once and closed *)
  gzip_compress : Z -> bytes -> bytes;
  gzip_decompress : bytes -> gzip_stream;
  (** a [tar.Writer]: [WriteHeader], [Write], [Close]; the archive bytes
      and the first error *)
  tar_archive : Header -> bytes -> result bytes;
  tar_read : bytes -> tar_entry;
}.

(** ** crypto/aes, crypto/cipher *)

Definition aes_BlockSize : nat := 16.

(** A [cipher.Block] is represented by its [Encrypt] method. *)
Definition Block := bytes -> bytes.

(** CFB mode, as [crypto/cipher] keeps its state: the block to encrypt
    next, the current key-stream block and how much of it is used. *)
Record cfb := {
  cfb_b : Block;
  cfb_next : bytes;
  cfb_out : bytes;
  cfb_outUsed : nat;
  cfb_decrypt : bool;
}.

(** [newCFB]: [next] is a copy of the IV and the key stream is exhausted. *)
Definition newCFB (block : Block) (iv : bytes) (decrypt : bool) : cfb :=
  {| cfb_b := block;
     cfb_next := iv;
     cfb_out := repeat x00 aes_BlockSize;
     cfb_outUsed := aes_BlockSize;
     cfb_decrypt := decrypt |}.

Definition NewCFBEncrypter (block : Block) (iv : bytes) : cfb := newCFB block iv false.
Definition NewCFBDecrypter (block : Block) (iv : bytes) : cfb := newCFB block iv true.

(** One byte of [XORKeyStream]'s loop: refill the key stream when it is
    used up, xor, and feed the ciphertext byte back into [next]. *)
Definition cfb_step (x : cfb) (s : byte) : byte * cfb :=
  let x1 :=
    if (cfb_outUsed x =? aes_BlockSize)%nat
    then {| cfb_b := cfb_b x; cfb_next := cfb_next x;
            cfb_out := cfb_b x (cfb_next x); cfb_outUsed := 0;
            cfb_decrypt := cfb_decrypt x |}
    else x in
  let d := xor_byte s (nth (cfb_outUsed x1) (cfb_out x1) x00) in
  (d, {| cfb_b := cfb_b x1;
         cfb_next := <[cfb_outUsed x1 := if cfb_decrypt x1 then s else d]> (cfb_next x1);
         cfb_out := cfb_out x1;
         cfb_outUsed := S (cfb_outUsed x1);
         cfb_decrypt := cfb_decrypt x1 |}).

(** [x.XORKeyStream(dst, src)]: the bytes written to [dst]. *)
Fixpoint XORKeyStream (x : cfb) (src : bytes) : bytes :=
  match src with
  | [] => []
  | s :: src' => let '(d, x') := cfb_step x s in d :: XORKeyStream x' src'
  end.

(** [hmac.Equal]: equal length and equal contents. *)
Definition hmac_Equal (mac1 mac2 : bytes) : bool := bool_decide (mac1 = mac2).

(** [io.ReadFull(r, buf)] on a reader that yields the bytes [r] and then
    fails: the bytes read into [buf], and the rest of the reader. *)
Definition io_ReadFull (r : bytes) (n : nat) : result bytes * bytes :=
  if (n =? 0)%nat then (Ok [], r)
  else if (length r =? 0)%nat then (Err io_EOF, [])
  else if (length r <? n)%nat then (Err io_ErrUnexpectedEOF, [])
  else (Ok (take n r), drop n r).

Definition gzip_HuffmanOnly : Z := -2.
Definition gzip_BestCompression : Z := 9.

(** [gzip.NewWriterLevel] refuses a level outside its range. *)
Definition gzip_NewWriterLevel (level : Z) : option error :=
  if ((level <? gzip_HuffmanOnly) || (gzip_BestCompression <? level))%Z
  then Some (lib_error "gzip" "invalid compression level")
  else None.

(** ** enc.go and its decrypt counterpart: the envelope codec *)

Section Envelope.

Variable L : GoLib.

(** [aes.NewCipher]: only 16, 24 and 32 byte keys. *)
Definition aes_NewCipher (key : bytes) : result Block :=
  match length key with
  | 16 | 24 | 32 => Ok (aes_encrypt_block L key)
  | k => Err (aes_KeySizeError k)
  end.

Definition generate32ByteKey (input : bytes) : bytes :=
  let N := Z.shiftl 16 10 in
  let r := 8%Z in
  let p := 1%Z in
  let keyLen := 32%Z in
  let salt := sha512_Sum512 L input in
  let '(key, _) := scrypt_Key L input salt N r p keyLen in
  key.

(** [Encrypt(data, key)].  [rnd] is what [rand.Reader] yields; the second
    component is what is left of it. *)
Definition Encrypt (data key : bytes) (rnd : bytes) : result (bytes * string) * bytes :=
  let aes256Key := generate32ByteKey key in
  match aes_NewCipher aes256Key with
  | Err e => (Err e, rnd)
  | Ok block =>
      match gzip_NewWriterLevel gzip_BestCompression with
      | Some e => (Err e, rnd)
      | None =>
          let buf := gzip_compress L gzip_BestCompression data in
          match io_ReadFull rnd aes_BlockSize with
          | (Err e, rnd') => (Err e, rnd')
          | (Ok iv, rnd') =>
              let cfb := NewCFBEncrypter block iv in
              let ciphertext := iv ++ XORKeyStream cfb buf in
              let sig := hex_EncodeToString (hmac_sha256 L key ciphertext) in
              (Ok (ciphertext, sig), rnd')
          end
      end
  end.

(** The calls [Decrypt] makes, in order. *)
Inductive call :=
| call_hex_DecodeString
| call_hmac
| call_generate32ByteKey
| call_aes_NewCipher
| call_XORKeyStream
| call_gzip_NewReader
| call_ReadAll.

(** One run of [Decrypt]: what it returns, its caller's [data] slice
    after the call, and the calls it made. *)
Record run := {
  run_ret : option bytes;
  run_err : option error;
  run_data : bytes;
  run_calls : list call;
}.

Definition Decrypt (data : bytes) (sig : string) (key : bytes) : run :=
  if (length data <? aes_BlockSize)%nat then
    {| run_ret := None; run_err := Some ErrInsufficientData;
       run_data := data; run_calls := [] |}
  else
    let '(sig_mac, err) := hex_DecodeString sig in
    match err with
    | Some e =>
        {| run_ret := None; run_err := Some e;
           run_data := data; run_calls := [call_hex_DecodeString] |}
    | None =>
        let data_mac := hmac_sha256 L key data in
        if negb (hmac_Equal sig_mac data_mac) then
          {| run_ret := None; run_err := Some ErrSignatureMismatch;
             run_data := data; run_calls := [call_hex_DecodeString; call_hmac] |}
        else
          let aes256Key := generate32ByteKey key in
          match aes_NewCipher aes256Key with
          | Err e =>
              {| run_ret := None; run_err := Some e; run_data := data;
                 run_calls := [call_hex_DecodeString; call_hmac;
                               call_generate32ByteKey; call_aes_NewCipher] |}
          | Ok block =>
              let iv := take aes_BlockSize data in
              let dectext := drop aes_BlockSize data in
              let cfb := NewCFBDecrypter block iv in
              (* dst and src are the same slice: [data] changes in place *)
              let dectext := XORKeyStream cfb dectext in
              let data := iv ++ dectext in
              match gzip_decompress L dectext with
              | gzip_bad_header e =>
                  {| run_ret := None; run_err := Some e; run_data := data;
                     run_calls := [call_hex_DecodeString; call_hmac;
                                   call_generate32ByteKey; call_aes_NewCipher;
                                   call_XORKeyStream; call_gzip_NewReader] |}
              | gzip_read out e =>
                  {| run_ret := Some out; run_err := e; run_data := data;
                     run_calls := [call_hex_DecodeString; call_hmac;
                                   call_generate32ByteKey; call_aes_NewCipher;
                                   call_XORKeyStream; call_gzip_NewReader;
                                   call_ReadAll] |}
              end
          end
    end.

End Envelope.

(** ** path/filepath

    A path is modelled by its resolved form: the list of its components
    from the root.  [filepath.Join] cleans its result lexically. *)
Abbreviation pathname := (list string).

Definition filepath_Base (p : pathname) : string := default "/" (last p).

Definition filepath_Dir (p : pathname) : pathname := removelast p.

(** The components of [s] between slashes; [cur] is the one being read. *)
Fixpoint components (s : string) (cur : string) : list string :=
  match s with
  | EmptyString => [cur]
  | String c s' =>
      if Ascii.eqb c "/" then cur :: components s' ""
      else components s' (cur +:+ String c "")
  end.

Definition clean_component (acc : pathname) (c : string) : pathname :=
  if String.eqb c "" || String.eqb c "." then acc
  else if String.eqb c ".." then removelast acc
  else acc ++ [c].

Definition filepath_Join (dir : pathname) (name : string) : pathname :=
  fold_left clean_component (components name "") dir.

(** ** os: an in-memory file system *)

Definition os_ModeDir : Z := Z.shiftl 1 31.
Definition os_ModeSymlink : Z := Z.shiftl 1 27.
Definition os_ModeDevice : Z := Z.shiftl 1 26.
Definition os_ModeNamedPipe : Z := Z.shiftl 1 25.
Definition os_ModeSocket : Z := Z.shiftl 1 24.
Definition os_ModeCharDevice : Z := Z.shiftl 1 21.
Definition os_ModeIrregular : Z := Z.shiftl 1 19.
Definition os_ModeType : Z :=
  Z.lor os_ModeDir (Z.lor os_ModeSymlink (Z.lor os_ModeNamedPipe
    (Z.lor os_ModeSocket (Z.lor os_ModeDevice
      (Z.lor os_ModeCharDevice os_ModeIrregular))))).
Definition os_ModePerm : Z := 511.

Definition os_O_WRONLY : Z := 1.
Definition os_O_CREATE : Z := 64.
Definition os_O_EXCL : Z := 128.
Definition os_O_SYNC : Z := 1052672.

Inductive special := NamedPipe | Socket | Device | CharDevice | Irregular.

(** A file-system entry.  Of a mode, a node keeps the permission bits. *)
Inductive node :=
| Regular (perm : Z) (modTime : Z) (content : bytes)
| Directory (perm : Z) (modTime : Z)
| Symlink (target : pathname)
| Special (kind : special) (perm : Z).

Definition special_Mode (k : special) : Z :=
  match k with
  | NamedPipe => os_ModeNamedPipe
  | Socket => os_ModeSocket
  | Device => os_ModeDevice
  | CharDevice => Z.lor os_ModeDevice os_ModeCharDevice
  | Irregular => os_ModeIrregular
  end.

Record FileInfo := {
  fi_Name : string;
  fi_Size : Z;
  fi_Mode : Z;
  fi_ModTime : Z;
}.

Definition node_Mode (n : node) : Z :=
  match n with
  | Regular perm _ _ => Z.land perm os_ModePerm
  | Directory perm _ => Z.lor os_ModeDir (Z.land perm os_ModePerm)
  | Symlink _ => Z.lor os_ModeSymlink os_ModePerm
  | Special k perm => Z.lor (special_Mode k) (Z.land perm os_ModePerm)
  end.

Definition node_info (name : string) (n : node) : FileInfo :=
  {| fi_Name := name;
     fi_Size := match n with Regular _ _ c => Z.of_nat (length c) | _ => 0 end;
     fi_Mode := node_Mode n;
     fi_ModTime := match n with
                   | Regular _ t _ | Directory _ t => t
                   | _ => 0
                   end |}.

Definition fi_IsDir (info : FileInfo) : bool :=
  negb (Z.land (fi_Mode info) os_ModeDir =? 0)%Z.

(** What the package's calls read and change: the file system, the bytes
    [rand.Reader] still yields, the bytes the disk still takes, the clock. *)
Record world := {
  fs : gmap pathname node;
  rand_Reader : bytes;
  free_space : nat;
  now : Z;
}.

Definition set_fs (m : gmap pathname node) (w : world) : world :=
  {| fs := m; rand_Reader := rand_Reader w;
     free_space := free_space w; now := now w |}.

(** How a call ends: it returns ([Fails e] when the error it returns is
    non-nil), or it panics.  [OutOfFuel] belongs to the model's bounded
    recursion. *)
Inductive outcome (A : Type) :=
| Returns (a : A)
| Fails (e : error)
| Panics (msg : string)
| OutOfFuel.
Arguments Returns {A} a.
Arguments Fails {A} e.
Arguments Panics {A} msg.
Arguments OutOfFuel {A}.

Definition M (A : Type) : Type := world -> outcome A * world.

Definition ret {A} (a : A) : M A := fun w => (Returns a, w).
Definition fail {A} (e : error) : M A := fun w => (Fails e, w).
Definition panic {A} (msg : string) : M A := fun w => (Panics msg, w).

(** [if err != nil { return ..., err }] after every call. *)
Definition bind {A B} (c : M A) (k : A -> M B) : M B :=
  fun w =>
    match c w with
    | (Returns a, w') => k a w'
    | (Fails e, w') => (Fails e, w')
    | (Panics msg, w') => (Panics msg, w')
    | (OutOfFuel, w') => (OutOfFuel, w')
    end.

(** The error of a call as a value, for a caller that looks at it. *)
Definition attempt {A} (c : M A) : M (result A) :=
  fun w =>
    match c w with
    | (Returns a, w') => (Returns (Ok a), w')
    | (Fails e, w') => (Returns (Err e), w')
    | (Panics msg, w') => (Panics msg, w')
    | (OutOfFuel, w') => (OutOfFuel, w')
    end.

Notation "x <- c ;; k" := (bind c (fun x => k))
  (at level 100, c at next level, right associativity).
Notation "c ;;; k" := (bind c (fun _ => k))
  (at level 100, right associativity).

Definition nil_dereference : string :=
  "invalid memory address or nil pointer dereference".

(** Symbolic links are followed at the last component, at most
    [maxSymlinks] times. *)
Definition maxSymlinks : nat := 40.

Fixpoint follow (fuel : nat) (m : gmap pathname node) (p : pathname) : (pathname * node) + errno :=
  match m !! p with
  | None => inr ENOENT
  | Some (Symlink target) =>
      match fuel with
      | 0 => inr ELOOP
      | S fuel' => follow fuel' m target
      end
  | Some n => inl (p, n)
  end.

Definition os_Lstat (p : pathname) : M FileInfo :=
  fun w =>
    match fs w !! p with
    | Some n => (Returns (node_info (filepath_Base p) n), w)
    | None => (Fails (os_PathError "lstat" p ENOENT), w)
    end.

Definition os_Stat (p : pathname) : M FileInfo :=
  fun w =>
    match follow maxSymlinks (fs w) p with
    | inl (_, n) => (Returns (node_info (filepath_Base p) n), w)
    | inr e => (Fails (os_PathError "stat" p e), w)
    end.

Definition ioutil_ReadFile (p : pathname) : M bytes :=
  fun w =>
    match follow maxSymlinks (fs w) p with
    | inl (_, Regular _ _ content) => (Returns content, w)
    | inl (_, Directory _ _) => (Fails (os_PathError "read" p EISDIR), w)
    | inl (_, _) => (Fails (os_PathError "read" p EINVAL), w)
    | inr e => (Fails (os_PathError "open" p e), w)
    end.

(** An open file is named by its path: the package keeps a file open only
    between creating it and closing it. *)
Abbreviation File := (list string).

Definition has_flag (flag bit : Z) : bool := negb (Z.land flag bit =? 0)%Z.

(** [os.OpenFile(name, flag, perm)].  The package opens files for writing
    with [O_CREATE|O_EXCL] only, and only that is modelled: the name must
    not exist (a symbolic link counts as existing), its parent must be a
    directory, and the new file is empty. *)
Definition os_OpenFile (name : pathname) (flag : Z) (perm : Z) : M File :=
  fun w =>
    if negb (has_flag flag os_O_CREATE && has_flag flag os_O_EXCL) then
      (Fails (os_PathError "open" name EINVAL), w)
    else
      match fs w !! name with
      | Some _ => (Fails (os_PathError "open" name EEXIST), w)
      | None =>
          match name, fs w !! filepath_Dir name with
          | [], _ => (Fails (os_PathError "open" name EISDIR), w)
          | _, Some (Directory _ _) =>
              (Returns name,
               set_fs (<[name := Regular (Z.land perm os_ModePerm) (now w) []]> (fs w)) w)
          | _, Some _ => (Fails (os_PathError "open" name ENOTDIR), w)
          | _, None => (Fails (os_PathError "open" name ENOENT), w)
          end
      end.

(** [f.Write(b)]: the bytes written and the error.  The disk takes
    [free_space] more bytes; a write that does not fit is cut short and
    reports [ENOSPC]. *)
Definition file_Write (f : File) (b : bytes) : M (nat * option error) :=
  fun w =>
    match fs w !! f with
    | Some (Regular perm _ content) =>
        let n := Nat.min (length b) (free_space w) in
        (Returns (n, if (n <? length b)%nat
                     then Some (os_PathError "write" f ENOSPC) else None),
         {| fs := <[f := Regular perm (now w) (content ++ take n b)]> (fs w);
            rand_Reader := rand_Reader w;
            free_space := free_space w - n;
            now := now w |})
    | _ => (Returns (0, Some (os_PathError "write" f EBADF)), w)
    end.

Definition file_Close (f : File) : M unit := ret tt.

(** The names in directory [dir], sorted as [sort.Strings] does. *)
Definition string_le (s1 s2 : string) : Prop := String.leb s1 s2 = true.

#[global] Instance string_le_dec : RelDecision string_le.
Proof. intros s1 s2. unfold string_le. apply _. Defined.

Definition children (m : gmap pathname node) (dir : pathname) : list string :=
  omap (fun q => match last q with
                 | Some name => if decide (filepath_Dir q = dir) then Some name else None
                 | None => None
                 end)
       (map fst (map_to_list m)).

Definition readDirNames (dir : pathname) : M (list string) :=
  fun w =>
    match fs w !! dir with
    | Some (Directory _ _) => (Returns (merge_sort string_le (children (fs w) dir)), w)
    | Some _ => (Fails (os_PathError "open" dir ENOTDIR), w)
    | None => (Fails (os_PathError "open" dir ENOENT), w)
    end.

(** [os.Remove]: unlinks a file (a symbolic link itself, not its target),
    removes a directory only when it is empty. *)
Definition os_Remove (name : pathname) : M unit :=
  fun w =>
    match fs w !! name with
    | None => (Fails (os_PathError "remove" name ENOENT), w)
    | Some (Directory _ _) =>
        match children (fs w) name with
        | [] => (Returns tt, set_fs (delete name (fs w)) w)
        | _ => (Fails (os_PathError "remove" name ENOTEMPTY), w)
        end
    | Some (Regular _ _ content) =>
        (Returns tt,
         {| fs := delete name (fs w);
            rand_Reader := rand_Reader w;
            free_space := free_space w + length content;
            now := now w |})
    | Some _ => (Returns tt, set_fs (delete name (fs w)) w)
    end.

(** [os.Chtimes(name, atime, mtime)]; access times are not modelled. *)
Definition os_Chtimes (name : pathname) (atime mtime : Z) : M unit :=
  fun w =>
    match follow maxSymlinks (fs w) name with
    | inl (q, Regular perm _ content) =>
        (Returns tt, set_fs (<[q := Regular perm mtime content]> (fs w)) w)
    | inl (q, Directory perm _) =>
        (Returns tt, set_fs (<[q := Directory perm mtime]> (fs w)) w)
    | inl (_, _) => (Returns tt, w)
    | inr e => (Fails (os_PathError "chtimes" name e), w)
    end.

Definition time_Now : M Z := fun w => (Returns (now w), w).

(** [io.Copy(dst, src)] from a reader that yields [body] and then ends
    with [body_err] (nil for a clean end): the bytes copied and the error. *)
Definition io_Copy (dst : File) (body : bytes) (body_err : option error)
  : M (Z * option error) :=
  r <- file_Write dst body ;;
  match r with
  | (n, Some e) => ret (Z.of_nat n, Some e)
  | (n, None) => ret (Z.of_nat n, body_err)
  end.

(** [filepath.Walk].  The package's callbacks never return [SkipDir], so
    the walk's handling of it is left out.  [fuel] bounds the depth. *)
Definition WalkFunc := pathname -> option FileInfo -> option error -> M unit.

Fixpoint walk (fuel : nat) (walkFn : WalkFunc) (p : pathname) (info : FileInfo) : M unit :=
  match fuel with
  | 0 => fun w => (OutOfFuel, w)
  | S fuel' =>
      if negb (fi_IsDir info) then walkFn p (Some info) None
      else
        names <- attempt (readDirNames p) ;;
        match names with
        | Err e => walkFn p (Some info) (Some e)
        | Ok names =>
            walkFn p (Some info) None ;;;
            (fix each (names : list string) : M unit :=
               match names with
               | [] => ret tt
               | name :: names' =>
                   let filename := p ++ [name] in
                   fileInfo <- attempt (os_Lstat filename) ;;
                   match fileInfo with
                   | Err e => walkFn filename None (Some e) ;;; each names'
                   | Ok fileInfo => walk fuel' walkFn filename fileInfo ;;; each names'
                   end
               end) names
        end
  end.

(** The length of the longest path in [m]. *)
Definition depth (m : gmap pathname node) : nat :=
  foldr Nat.max 0 (map (fun e => length (fst e)) (map_to_list m)).

(** The walk starts with more fuel than the tree is deep. *)
Definition filepath_Walk (root : pathname) (fn : WalkFunc) : M unit :=
  fun w =>
    (info <- attempt (os_Lstat root) ;;
     match info with
     | Err e => fn root None (Some e)
     | Ok info => walk (2 + depth (fs w)) fn root info
     end) w.

(** ** The file codec and the directory walker *)

Section Files.

Variable L : GoLib.

(** [Encrypt] draws its IV from the world's [rand.Reader]. *)
Definition Encrypt_call (data key : bytes) : M (bytes * string) :=
  fun w =>
    let '(r, rnd') := Encrypt L data key (rand_Reader w) in
    let w' := {| fs := fs w; rand_Reader := rnd';
                 free_space := free_space w; now := now w |} in
    match r with
    | Ok out => (Returns out, w')
    | Err e => (Fails e, w')
    end.

(** [Decrypt] works on the buffer [ReadFile] returned, which nothing else
    refers to. *)
Definition Decrypt_call (data : bytes) (sig : string) (key : bytes) : M bytes :=
  let r := Decrypt L data sig key in
  match run_err r with
  | Some e => fail e
  | None => ret (default [] (run_ret r))
  end.

Definition lift {A} (r : result A) : M A :=
  match r with
  | Ok a => ret a
  | Err e => fail e
  end.

(** [EncryptFile(path, key)].  Writing to [LogOutput] is left out. *)
Definition EncryptFile (path : pathname) (key : bytes) : M pathname :=
  info <- os_Stat path ;;
  if negb (Z.land (fi_Mode info) os_ModeType =? 0)%Z then
    fail ErrInvalidFileType
  else
    data <- ioutil_ReadFile path ;;
    let hdr := {| hdr_Name := fi_Name info;
                  hdr_Mode := fi_Mode info;
                  hdr_Size := fi_Size info;
                  hdr_ModTime := fi_ModTime info |} in
    buf <- lift (tar_archive L hdr data) ;;
    enc <- Encrypt_call buf key ;;
    let '(encrypted_data, sig) := enc in
    let new_file_path := filepath_Join (filepath_Dir path) sig in
    new_file <- os_OpenFile new_file_path
                  (Z.lor os_O_WRONLY (Z.lor os_O_CREATE (Z.lor os_O_EXCL os_O_SYNC)))
                  256 (* 0400 *) ;;
    wr <- file_Write new_file encrypted_data ;;
    match wr with
    | (_, Some err) => fail err
    | (n, None) =>
        if negb (n =? length encrypted_data)%nat then fail io_ErrShortWrite
        else
          file_Close new_file ;;;
          ret new_file_path
    end.

(** [DecryptFile(path, key)].  [tr.Next()] returns a nil header together
    with [io.EOF]; the code lets [io.EOF] pass and then reads [hdr.Name]. *)
Definition DecryptFile (path : pathname) (key : bytes) : M pathname :=
  if negb (sha256HexRegexp_MatchString (filepath_Base path)) then
    fail ErrInvalidFileName
  else
    info <- os_Stat path ;;
    if negb (Z.land (fi_Mode info) os_ModeType =? 0)%Z then
      fail ErrInvalidFileType
    else
      data <- ioutil_ReadFile path ;;
      let sig := filepath_Base path in
      dec_data <- Decrypt_call data sig key ;;
      let tr := tar_read L dec_data in
      match next_err tr with
      | Some err => if bool_decide (err <> io_EOF) then fail err else ret tt
      | None => ret tt
      end ;;;
      match next_hdr tr with
      | None => panic nil_dereference
      | Some hdr =>
          let orig_file_path := filepath_Join (filepath_Dir path) (hdr_Name hdr) in
          orig_file <- os_OpenFile orig_file_path
                         (Z.lor os_O_WRONLY (Z.lor os_O_CREATE (Z.lor os_O_EXCL os_O_SYNC)))
                         (Z.land (hdr_Mode hdr) (Z.ones 32)) ;;
          cp <- io_Copy orig_file (entry_body tr) (entry_err tr) ;;
          match cp with
          | (_, Some err) => file_Close orig_file ;;; fail err
          | (n, None) =>
              if negb (n =? hdr_Size hdr)%Z then
                file_Close orig_file ;;; fail io_ErrShortWrite
              else
                file_Close orig_file ;;;
                t <- time_Now ;;
                os_Chtimes orig_file_path t (hdr_ModTime hdr) ;;;
                ret orig_file_path
          end
      end.

(** The function [EncryptDirFiles] hands to [filepath.Walk]; it reads
    [info] without looking at [err]. *)
Definition EncryptDirFiles_fn (key : bytes) : WalkFunc :=
  fun path info err =>
    match info with
    | None => panic nil_dereference
    | Some info =>
        if negb (Z.land (fi_Mode info) os_ModeType =? 0)%Z then ret tt
        else
          EncryptFile path key ;;;
          os_Remove path ;;;
          ret tt
    end.

Definition EncryptDirFiles (dir : pathname) (key : bytes) : M unit :=
  filepath_Walk dir (EncryptDirFiles_fn key).

(** The function [DecryptDirFiles] hands to [filepath.Walk].  Printing
    "Skipping" to [LogOutput] is left out. *)
Definition DecryptDirFiles_fn (key : bytes) : WalkFunc :=
  fun path info err =>
    match info with
    | None => panic nil_dereference
    | Some info =>
        if fi_IsDir info then ret tt
        else if negb (sha256HexRegexp_MatchString (filepath_Base path)) then ret tt
        else
          DecryptFile path key ;;;
          os_Remove path ;;;
          ret tt
    end.

Definition DecryptDirFiles (dir : pathname) (key : bytes) : M unit :=
  filepath_Walk dir (DecryptDirFiles_fn key).

End Files.

(** ** A small instance of the imported packages

    Stand-ins that compute, used to run the package on concrete inputs:
    a checksum for the hashes, a one-byte xor for the block cipher, a
    two-byte magic number for the compressor and a length-prefixed
    single-entry archive. *)
Module Toy.

Definition checksum (l : bytes) : N :=
  fold_left (fun acc b => ((acc * 31 + Byte.to_N b + 1) mod 256)%N) l 7%N.

Definition sha512_Sum512 (input : bytes) : bytes :=
  map (fun i => byte_of_N ((checksum input + N.of_nat i) mod 256)) (seq 0 64).

Definition scrypt_Key (password salt : bytes) (N r p keyLen : Z) : bytes * option error :=
  if ((N <=? 1) || negb (Z.land N (N - 1) =? 0))%Z then
    ([], Some (lib_error "scrypt" "N must be > 1 and a power of 2"))
  else if (2 ^ 30 <=? r * p)%Z then
    ([], Some (lib_error "scrypt" "parameters are too large"))
  else
    (map (fun i => byte_of_N ((checksum (password ++ salt) + 3 * N.of_nat i) mod 256))
         (seq 0 (Z.to_nat keyLen)), None).

Definition aes_encrypt_block (key block : bytes) : bytes :=
  map (fun b => xor_byte b (byte_of_N (checksum key)))
      (take aes_BlockSize (rotate 1 block ++ repeat x00 aes_BlockSize)).

Definition hmac_sha256 (key data : bytes) : bytes :=
  map (fun i => byte_of_N ((checksum (key ++ x00 :: data) * 5 + 11 * N.of_nat i) mod 256))
      (seq 0 32).

Definition gzip_compress (level : Z) (data : bytes) : bytes :=
  x1f :: x8b :: data.

Definition gzip_decompress (data : bytes) : gzip_stream :=
  match data with
  | x1f :: x8b :: rest => gzip_read rest None
  | _ => gzip_bad_header (lib_error "gzip" "invalid header")
  end.

(** Numbers below 2^32 as four bytes, least significant first. *)
Definition number (z : Z) : bytes :=
  map (fun i => byte_of_N (Z.to_N ((z / 256 ^ Z.of_nat i) mod 256))) (seq 0 4).

Definition read_number (l : bytes) : Z :=
  fold_right (fun b acc => (Z.of_N (Byte.to_N b) + 256 * acc)%Z) 0%Z (take 4 l).

Definition tar_archive (hdr : Header) (data : bytes) : result bytes :=
  if negb (hdr_Size hdr =? Z.of_nat (length data))%Z then
    Err (lib_error "tar" "write too long")
  else
    let name := list_byte_of_string (hdr_Name hdr) in
    Ok (number (Z.of_nat (length name)) ++ name ++ number (hdr_Mode hdr)
        ++ number (hdr_Size hdr) ++ number (hdr_ModTime hdr) ++ data).

Definition tar_read (archive : bytes) : tar_entry :=
  match archive with
  | [] => {| next_hdr := None; next_err := Some io_EOF;
             entry_body := []; entry_err := None |}
  | _ =>
      let len := Z.to_nat (read_number archive) in
      let rest := drop (4 + len) archive in
      if (length archive <? 4 + len + 12)%nat then
        {| next_hdr := None; next_err := Some io_ErrUnexpectedEOF;
           entry_body := []; entry_err := None |}
      else
        let size := read_number (drop 4 rest) in
        let body := drop 12 rest in
        {| next_hdr := Some {| hdr_Name := string_of_list_byte (take len (drop 4 archive));
                               hdr_Mode := read_number rest;
                               hdr_Size := size;
                               hdr_ModTime := read_number (drop 8 rest) |};
           next_err := None;
           entry_body := take (Z.to_nat size) body;
           entry_err := if (length body <? Z.to_nat size)%nat
                        then Some io_ErrUnexpectedEOF else None |}
  end.

Definition lib : GoLib :=
  Build_GoLib sha512_Sum512 scrypt_Key aes_encrypt_block hmac_sha256
              gzip_compress gzip_decompress tar_archive tar_read.

End Toy.

(** ** The command-line programs: enc, dec and enc_file

    [base64.StdEncoding], as the programs use it. *)
Record Encoding := {
  (** [enc.EncodeToString] *)
  EncodeToString : bytes -> string;
  (** [ioutil.ReadAll(base64.NewDecoder(enc, r))] on a reader [r] that
      yields the given bytes and ends with the given error (nil for a clean
      end): the bytes decoded and the error *)
  NewDecoder_ReadAll : bytes -> option error -> bytes * option error;
}.

(** What a program is started with: its environment, what [os.Stdin]
    yields and how reading it ends, and [os.Args[1:]] as resolved paths. *)
Record process := {
  Environ : gmap string string;
  Stdin : bytes;
  Stdin_err : option error;
  Args : list pathname;
}.

(** What [log.Fatal] was called with. *)
Inductive fatal :=
| fatal_string (s : string)
| fatal_error (e : error).

(** How a program ends: [main] returns, [log.Fatal] exits, or a panic. *)
Inductive ending :=
| exit_0
| log_Fatal (v : fatal)
| runtime_panic (msg : string)
| out_of_fuel.

Definition os_LookupEnv (pr : process) (name : string) : option string :=
  Environ pr !! name.

Definition key_not_set : fatal := fatal_string "CRYP_KEY not set in environment".

Definition newline : string := String (ascii_of_nat 10) "".

Section Programs.

Variable L : GoLib.
Variable StdEncoding : Encoding.

(** enc/main.go.  The result is what was printed to [os.Stdout], how the
    program ended, and what is left of [rand.Reader]. *)
Definition enc_main (pr : process) (rnd : bytes) : string * ending * bytes :=
  match os_LookupEnv pr "CRYP_KEY" with
  | None => ("", log_Fatal key_not_set, rnd)
  | Some key =>
      match Stdin_err pr with
      | Some err => ("", log_Fatal (fatal_error err), rnd)
      | None =>
          let data := Stdin pr in
          match Encrypt L data (list_byte_of_string key) rnd with
          | (Err err, rnd') => ("", log_Fatal (fatal_error err), rnd')
          | (Ok (output, sig), rnd') =>
              (* prepend sig to encrypted data before base64 encoding *)
              let buf := [] in
              let buf := buf ++ list_byte_of_string sig in
              let buf := buf ++ output in
              (EncodeToString StdEncoding buf +:+ newline, exit_0, rnd')
          end
      end
  end.

(** dec/main.go.  The result is what was written to [os.Stdout] and how
    the program ended. *)
Definition dec_main (pr : process) : bytes * ending :=
  match os_LookupEnv pr "CRYP_KEY" with
  | None => ([], log_Fatal key_not_set)
  | Some key =>
      let '(input, err) := NewDecoder_ReadAll StdEncoding (Stdin pr) (Stdin_err pr) in
      match err with
      | Some err => ([], log_Fatal (fatal_error err))
      | None =>
          if (length input <? SignatureSize)%nat then
            ([], log_Fatal (fatal_string "data too short to decrypt"))
          else
            (* extract sig prefix from input data *)
            let sig := string_of_list_byte (take SignatureSize input) in
            let input := drop SignatureSize input in
            let r := Decrypt L input sig (list_byte_of_string key) in
            match run_err r with
            | Some err => ([], log_Fatal (fatal_error err))
            | None => (default [] (run_ret r), exit_0)
            end
      end
  end.



End Programs.

(** ** Definitions used in the proofs *)

(** A CFB encrypter and decrypter over the same block, in step. *)
Definition in_step (e d : cfb) : Prop :=
  cfb_b e = cfb_b d /\ cfb_next e = cfb_next d /\ cfb_out e = cfb_out d
  /\ cfb_outUsed e = cfb_outUsed d
  /\ cfb_decrypt e = false /\ cfb_decrypt d = true.

Definition hi_digit (v : byte) : N := N.shiftr (Byte.to_N v) 4.
Definition lo_digit (v : byte) : N := N.land (Byte.to_N v) 15.

(** Flipping bit [k] in either hex digit of [v]: a digit of another value
    decodes to a byte other than [v]. *)
Definition flipped_digit_ok (v : byte) (k : nat) : bool :=
  match fromHexChar (flip_char k (hex_digit (hi_digit v))) with
  | None => true
  | Some a' =>
      (a' =? hi_digit v)%N
      || negb (Byte.eqb (byte_of_N (N.lor (N.shiftl a' 4) (lo_digit v))) v)
  end
  && match fromHexChar (flip_char k (hex_digit (lo_digit v))) with
     | None => true
     | Some b' =>
         (b' =? lo_digit v)%N
         || negb (Byte.eqb (byte_of_N (N.lor (N.shiftl (hi_digit v) 4) b')) v)
     end.

(** What [hex.DecodeString] makes of a signature [g] that spelled the
    bytes [m], after its character [c] became [c']. *)
Definition decodes_flipped (m : bytes) (c c' : ascii) (g' : string) : Prop :=
  match fromHexChar c' with
  | None => snd (hex_DecodeString g') = Some (hex_InvalidByteError c')
  | Some v' =>
      if decide (fromHexChar c = Some v')
      then hex_DecodeString g' = (m, None)
      else exists m', hex_DecodeString g' = (m', None) /\ m' <> m
  end.

(** The flags both codecs create a file with. *)
Definition excl_create : Z :=
  Z.lor os_O_WRONLY (Z.lor os_O_CREATE (Z.lor os_O_EXCL os_O_SYNC)).

(** Every entry of [w] is still in [w'], unchanged. *)
Definition extends (w w' : world) : Prop :=
  forall q n, fs w !! q = Some n -> fs w' !! q = Some n.

(** Whatever the outcome of [c], the entries that satisfy [P] stay. *)
Definition keeps {A : Type} (P : pathname -> node -> Prop) (c : M A) (w : world) : Prop :=
  forall o w', c w = (o, w') ->
    forall q n, fs w !! q = Some n -> P q n -> fs w' !! q = Some n.

(** A walk function keeps them when it is handed the [Lstat] of the
    entry it is called on, or no [FileInfo] at all. *)
Definition fn_keeps (P : pathname -> node -> Prop) (fn : WalkFunc) : Prop :=
  (forall p err w, keeps P (fn p None err) w)
  /\ (forall p n err w,
        fs w !! p = Some n ->
        keeps P (fn p (Some (node_info (filepath_Base p) n)) err) w).

Definition nonregular (q : pathname) (n : node) : Prop :=
  forall perm t content, n <> Regular perm t content.

(** A directory, or an entry whose name is not a signature. *)
Definition not_an_artifact (q : pathname) (n : node) : Prop :=
  (exists perm t, n = Directory perm t)
  \/ sha256HexRegexp_MatchString (filepath_Base q) = false.

(** [w'] is [w] with regular files added at free names, and no other
    change. *)
Definition adds_files (w w' : world) : Prop :=
  forall q, fs w' !! q = fs w !! q
            \/ (fs w !! q = None /\ exists perm t content,
                                      fs w' !! q = Some (Regular perm t content)).

Definition no_new_dirs (w w' : world) : Prop :=
  forall q perm t, fs w' !! q = Some (Directory perm t) ->
                   fs w !! q = Some (Directory perm t).

Definition ran_out {A : Type} (o : outcome A) : bool :=
  match o with
  | OutOfFuel => true
  | _ => false
  end.

(** [c] ends within its fuel and creates no directory. *)
Definition total {A : Type} (c : M A) (w : world) : Prop :=
  forall o w', c w = (o, w') -> ran_out o = false /\ no_new_dirs w w'.

Definition fn_total (fn : WalkFunc) : Prop :=
  (forall p err w, total (fn p None err) w)
  /\ (forall p n err w,
        fs w !! p = Some n ->
        total (fn p (Some (node_info (filepath_Base p) n)) err) w).

(** Every directory of [w] is less than [fuel] levels below [p]. *)
Definition shallow (fuel : nat) (p : pathname) (w : world) : Prop :=
  forall q perm t, fs w !! q = Some (Directory perm t) ->
                   S (length q) < fuel + length p.

(** Every entry but the root lies in a directory. *)
Definition well_formed (m : gmap pathname node) : bool :=
  forallb (fun e => match fst e with
                    | [] => true
                    | q => match m !! filepath_Dir q with
                           | Some (Directory _ _) => true
                           | _ => false
                           end
                    end)
          (map_to_list m).

Definition in_directories (m : gmap pathname node) : Prop :=
  forall q n, m !! q = Some n -> q <> [] ->
    exists perm t, m !! filepath_Dir q = Some (Directory perm t).

(** A read-only regular file named by the hex HMAC of its contents. *)
Definition is_artifact (L : GoLib) (key : bytes) (q : pathname) (n : node) : Prop :=
  exists t E, n = Regular 256 t E
              /\ filepath_Base q = hex_EncodeToString (hmac_sha256 L key E).

Definition encrypted (L : GoLib) (key : bytes) (q : pathname) (n : node) : Prop :=
  nonregular q n \/ is_artifact L key q n.

(** [q] is [p] or lies below it. *)
Definition under (p q : pathname) : Prop := exists r, q = p ++ r.

(** At [q], [w'] is as [w], or has a new artifact. *)
Definition as_before_or_artifact (L : GoLib) (key : bytes) (w w' : world)
    (q : pathname) : Prop :=
  fs w' !! q = fs w !! q
  \/ (fs w !! q = None /\ exists n, fs w' !! q = Some n /\ is_artifact L key q n).

(** What a walk from [p] leaves: below [p] nothing but directories, links,
    special files and artifacts; elsewhere at most new artifacts. *)
Definition walk_post (L : GoLib) (key : bytes) (p : pathname) (w w' : world) : Prop :=
  in_directories (fs w')
  /\ (forall q m, under p q -> fs w' !! q = Some m -> encrypted L key q m)
  /\ (forall q, ~ under p q -> as_before_or_artifact L key w w' q).

(** ** Concrete inputs

    The package run on the small instance: a secret, a plaintext, the
    bytes the random source yields, and a directory tree. *)
Module Example.

Definition key : bytes := list_byte_of_string "key".
Definition plaintext : bytes := list_byte_of_string "hi".
Definition entropy : bytes :=
  map (fun i => byte_of_N (N.of_nat (i * 37 mod 256))) (seq 0 48).

(** The envelope and signature [Encrypt] returns for them. *)
Definition envelope : bytes * string :=
  Eval vm_compute in
    match Encrypt Toy.lib plaintext key entropy with
    | (Ok out, _) => out
    | _ => ([], "")
    end.

(** A signature of the right shape that is not the envelope's. *)
Definition wrong_signature : string :=
  hex_EncodeToString (repeat x00 32).

(** Sixteen bytes of IV and four bytes that do not decrypt to a gzip
    stream, with the signature that authenticates them. *)
Definition garbage : bytes := take 16 entropy ++ [x01; x02; x03; x04].
Definition garbage_signature : string :=
  Eval vm_compute in hex_EncodeToString (Toy.hmac_sha256 key garbage).

(** /d/notes.txt, mode 0644. *)
Definition notes : pathname := ["d"; "notes.txt"].
Definition tree : world :=
  {| fs := list_to_map
             [ ([], Directory 493 0);
               (["d"], Directory 493 0);
               (notes, Regular 420 1000 plaintext) ];
     rand_Reader := entropy;
     free_space := 4096;
     now := 2000 |}.

(** The tree after [EncryptDirFiles] on /d, and the artifact in it. *)
Definition encrypted_tree : world :=
  snd (EncryptDirFiles Toy.lib ["d"] key tree).

Definition artifact : pathname :=
  Eval vm_compute in
    match fst (EncryptFile Toy.lib notes key tree) with
    | Returns p => p
    | _ => []
    end.

Definition artifact_bytes : bytes :=
  Eval vm_compute in
    match fs encrypted_tree !! artifact with
    | Some (Regular _ _ content) => content
    | _ => []
    end.

(** An artifact whose archive has no entry: the envelope of the empty
    payload, stored under its signature. *)
Definition empty_envelope : bytes * string :=
  Eval vm_compute in
    match Encrypt Toy.lib [] key entropy with
    | (Ok out, _) => out
    | _ => ([], "")
    end.

Definition empty_artifact : pathname := ["d"; snd empty_envelope].

Definition empty_artifact_tree : world :=
  {| fs := list_to_map
             [ ([], Directory 493 0);
               (["d"], Directory 493 0);
               (empty_artifact, Regular 256 1000 (fst empty_envelope)) ];
     rand_Reader := entropy;
     free_space := 4096;
     now := 2000 |}.

(** The artifact of notes.txt kept under another name in /store, and in
    /d a symbolic link to it that carries the artifact's name. *)
Definition stored : pathname := ["store"; "notes.enc"].
Definition link : pathname := ["d"; filepath_Base artifact].

Definition linked_tree : world :=
  {| fs := list_to_map
             [ ([], Directory 493 0);
               (["d"], Directory 493 0);
               (["store"], Directory 493 0);
               (stored, Regular 256 1000 artifact_bytes);
               (link, Symlink stored) ];
     rand_Reader := entropy;
     free_space := 4096;
     now := 2000 |}.

(** The encrypted tree with an ordinary file beside the artifact. *)
Definition plain : pathname := ["d"; "plain.txt"].
Definition mixed_tree : world :=
  set_fs (<[plain := Regular 420 5 plaintext]> (fs encrypted_tree)) encrypted_tree.

(** The artifact of notes.txt under a signature that is not its own. *)
Definition renamed : pathname := ["d"; wrong_signature].
Definition renamed_tree : world :=
  {| fs := list_to_map
             [ ([], Directory 493 0);
               (["d"], Directory 493 0);
               (renamed, Regular 256 1000 artifact_bytes) ];
     rand_Reader := entropy;
     free_space := 4096;
     now := 2000 |}.

End Example.

(** A stand-in for [base64.StdEncoding]: hexadecimal text, read back with
    line breaks skipped as [base64.NewDecoder] skips them. *)
Module ToyEncoding.

Definition is_newline (b : byte) : bool := Byte.eqb b x0a || Byte.eqb b x0d.

Definition NewDecoder_ReadAll (input : bytes) (err : option error)
  : bytes * option error :=
  let text := string_of_list_byte (List.filter (fun b => negb (is_newline b)) input) in
  match hex_DecodeString text with
  | (out, Some _) => (out, Some (lib_error "base64" "illegal base64 data"))
  | (out, None) => (out, err)
  end.

Definition StdEncoding : Encoding :=
  Build_Encoding hex_EncodeToString NewDecoder_ReadAll.

End ToyEncoding.

Module Programs.

(** [echo -n hi | CRYP_KEY=key enc], and [dec] reading what it printed. *)
Definition enc_process : process :=
  {| Environ := {[ "CRYP_KEY" := "key" ]};
     Stdin := Example.plaintext;
     Stdin_err := None;
     Args := [] |}.

Definition enc_output : string :=
  Eval vm_compute in
    fst (fst (enc_main Toy.lib ToyEncoding.StdEncoding enc_process Example.entropy)).

Definition dec_process : process :=
  {| Environ := {[ "CRYP_KEY" := "key" ]};
     Stdin := list_byte_of_string enc_output;
     Stdin_err := None;
     Args := [] |}.


End Programs.

Module Example2.

(** A directory that carries the name of a signature. *)
Definition hex_dir : pathname := ["d"; Example.wrong_signature].
Definition hex_dir_tree : world :=
  {| fs := list_to_map
             [ ([], Directory 493 0);
               (["d"], Directory 493 0);
               (hex_dir, Directory 493 0) ];
     rand_Reader := Example.entropy;
     free_space := 4096;
     now := 2000 |}.

(** The artifact [EncryptFile] makes of the link in [Example.linked_tree]. *)
Definition link_artifact : pathname :=
  Eval vm_compute in
    match fst (EncryptFile Toy.lib Example.link Example.key Example.linked_tree) with
    | Returns p => p
    | _ => []
    end.

(** /d/notes.txt and its artifact side by side. *)
Definition both_tree : world :=
  snd (EncryptFile Toy.lib Example.notes Example.key Example.tree).

End Example2.
(** ** Bytes and hexadecimal strings *)

Lemma xor_byte_involutive (a b : byte) : xor_byte (xor_byte a b) b = a.
Proof.
  unfold xor_byte.
  rewrite <- (Byte.of_bits_to_bits a) at 2.
  destruct (Byte.to_bits a) as (a0 & a1 & a2 & a3 & a4 & a5 & a6 & a7).
  destruct (Byte.to_bits b) as (b0 & b1 & b2 & b3 & b4 & b5 & b6 & b7).
  rewrite Byte.to_bits_of_bits.
  f_equal.
  repeat (f_equal; try (rewrite xorb_assoc, xorb_nilpotent, xorb_false_r; reflexivity)).
Qed.

Lemma hex_byte_roundtrip (v : byte) :
  fromHexChar (hex_digit (N.shiftr (Byte.to_N v) 4)) = Some (N.shiftr (Byte.to_N v) 4)
  /\ fromHexChar (hex_digit (N.land (Byte.to_N v) 15)) = Some (N.land (Byte.to_N v) 15)
  /\ byte_of_N (N.lor (N.shiftl (N.shiftr (Byte.to_N v) 4) 4) (N.land (Byte.to_N v) 15)) = v.
Proof. destruct v; repeat split; reflexivity. Qed.

Lemma hex_DecodeString_EncodeToString (src : bytes) :
  hex_DecodeString (hex_EncodeToString src) = (src, None).
Proof.
  induction src as [|v src IH]; [reflexivity|].
  destruct (hex_byte_roundtrip v) as (Hhi & Hlo & Hv).
  cbn [hex_EncodeToString hex_DecodeString].
  rewrite Hhi, Hlo, IH, Hv. reflexivity.
Qed.

Lemma hex_EncodeToString_length (src : bytes) :
  String.length (hex_EncodeToString src) = 2 * length src.
Proof. induction src as [|v src IH]; cbn [hex_EncodeToString String.length length]; lia. Qed.

Lemma hex_digit_lower (v : byte) :
  is_lower_hex (hex_digit (N.shiftr (Byte.to_N v) 4)) = true
  /\ is_lower_hex (hex_digit (N.land (Byte.to_N v) 15)) = true.
Proof. destruct v; split; reflexivity. Qed.

Lemma hex_EncodeToString_lower (src : bytes) :
  forallb is_lower_hex (list_ascii_of_string (hex_EncodeToString src)) = true.
Proof.
  induction src as [|v src IH]; [reflexivity|].
  destruct (hex_digit_lower v) as [Hhi Hlo].
  cbn [hex_EncodeToString list_ascii_of_string forallb].
  rewrite Hhi, Hlo, IH. reflexivity.
Qed.

Lemma hex_EncodeToString_matches (src : bytes) :
  length src = 32 ->
  sha256HexRegexp_MatchString (hex_EncodeToString src) = true.
Proof.
  intros Hlen. unfold sha256HexRegexp_MatchString.
  rewrite hex_EncodeToString_length, Hlen, hex_EncodeToString_lower.
  reflexivity.
Qed.

(** ** CFB mode *)

Lemma XORKeyStream_length (x : cfb) (src : bytes) :
  length (XORKeyStream x src) = length src.
Proof.
  revert x. induction src as [|s src IH]; intros x; [reflexivity|].
  cbn [XORKeyStream]. destruct (cfb_step x s) as [d x'].
  cbn [length]. rewrite IH. reflexivity.
Qed.

Lemma cfb_step_in_step (e d : cfb) (s : byte) :
  in_step e d ->
  let '(c, e') := cfb_step e s in
  let '(s', d') := cfb_step d c in
  s' = s /\ in_step e' d'.
Proof.
  destruct e as [eb en eo eu edec], d as [db dn do du ddec].
  intros (Hb & Hn & Ho & Hu & He & Hd). cbn in *. subst.
  unfold cfb_step. cbn.
  destruct (du =? aes_BlockSize)%nat; cbn;
    rewrite xor_byte_involutive; repeat split; reflexivity.
Qed.

Lemma XORKeyStream_in_step (src : bytes) (e d : cfb) :
  in_step e d -> XORKeyStream d (XORKeyStream e src) = src.
Proof.
  revert e d. induction src as [|s src IH]; intros e d Hed; [reflexivity|].
  pose proof (cfb_step_in_step e d s Hed) as Hstep.
  cbn [XORKeyStream].
  destruct (cfb_step e s) as [c e'].
  cbn [XORKeyStream].
  destruct (cfb_step d c) as [s' d'].
  destruct Hstep as [-> Hed'].
  rewrite (IH e' d' Hed'). reflexivity.
Qed.

Lemma CFB_decrypt_encrypt (block : Block) (iv src : bytes) :
  XORKeyStream (NewCFBDecrypter block iv)
               (XORKeyStream (NewCFBEncrypter block iv) src) = src.
Proof. apply XORKeyStream_in_step. repeat split; reflexivity. Qed.

(** ** The envelope codec *)

Section EnvelopeFacts.

Variable L : GoLib.

(** The contracts of the imported functions, as far as the theorems below
    use them.  For [scrypt.Key] it is the one enc.go's comments state: N a
    power of two greater than 1, and r * p < 2^30. *)
Hypothesis sha512_size : forall input, length (sha512_Sum512 L input) = 64.

Hypothesis scrypt_contract : forall password salt N r p keyLen,
  (1 < N)%Z -> Z.land N (N - 1) = 0%Z -> (0 < r)%Z -> (0 < p)%Z ->
  (r * p < 2 ^ 30)%Z -> (0 <= keyLen)%Z ->
  exists key, scrypt_Key L password salt N r p keyLen = (key, None)
              /\ length key = Z.to_nat keyLen.

Hypothesis hmac_size : forall key data, length (hmac_sha256 L key data) = 32.

Hypothesis gzip_roundtrip : forall level data,
  gzip_decompress L (gzip_compress L level data) = gzip_read data None.

Lemma generate32ByteKey_scrypt (input : bytes) :
  scrypt_Key L input (sha512_Sum512 L input) 16384 8 1 32
  = (generate32ByteKey L input, None)
  /\ length (generate32ByteKey L input) = 32.
Proof using scrypt_contract.
  unfold generate32ByteKey.
  destruct (scrypt_contract input (sha512_Sum512 L input) 16384 8 1 32)
    as (key & Hkey & Hlen); try reflexivity; try lia.
  change (Z.shiftl 16 10) with 16384%Z. rewrite Hkey. split; [reflexivity|].
  rewrite Hlen. reflexivity.
Qed.

Lemma aes_NewCipher_generate32ByteKey (key : bytes) :
  aes_NewCipher L (generate32ByteKey L key)
  = Ok (aes_encrypt_block L (generate32ByteKey L key)).
Proof using scrypt_contract.
  unfold aes_NewCipher.
  destruct (generate32ByteKey_scrypt key) as [_ ->]. reflexivity.
Qed.

Lemma aes_NewCipher_Ok (key : bytes) (block : Block) :
  aes_NewCipher L key = Ok block -> block = aes_encrypt_block L key.
Proof.
  unfold aes_NewCipher.
  repeat (match goal with |- context [match ?n with _ => _ end] => destruct n end;
          try discriminate);
    intros [= <-]; reflexivity.
Qed.

Lemma io_ReadFull_Ok (r : bytes) (n : nat) (buf rest : bytes) :
  io_ReadFull r n = (Ok buf, rest) ->
  r = buf ++ rest /\ length buf = n.
Proof.
  unfold io_ReadFull.
  destruct (n =? 0)%nat eqn:Hn.
  - intros [= <- <-]. apply Nat.eqb_eq in Hn. subst. auto.
  - destruct (length r =? 0)%nat; [discriminate|].
    destruct (length r <? n)%nat eqn:Hlt; [discriminate|].
    intros [= <- <-]. apply Nat.ltb_ge in Hlt.
    rewrite take_drop, length_take. split; [reflexivity | lia].
Qed.

(** What a successful [Encrypt] returned. *)
Lemma Encrypt_Ok (data key rnd E : bytes) (g : string) (rnd' : bytes) :
  Encrypt L data key rnd = (Ok (E, g), rnd') ->
  exists iv,
    rnd = iv ++ rnd' /\ length iv = 16
    /\ aes_NewCipher L (generate32ByteKey L key)
       = Ok (aes_encrypt_block L (generate32ByteKey L key))
    /\ E = iv ++ XORKeyStream
                   (NewCFBEncrypter (aes_encrypt_block L (generate32ByteKey L key)) iv)
                   (gzip_compress L gzip_BestCompression data)
    /\ g = hex_EncodeToString (hmac_sha256 L key E).
Proof.
  unfold Encrypt.
  destruct (aes_NewCipher L (generate32ByteKey L key)) as [block|e] eqn:Haes;
    [|discriminate].
  apply aes_NewCipher_Ok in Haes as ->.
  change (gzip_NewWriterLevel gzip_BestCompression) with (@None error). cbn iota.
  destruct (io_ReadFull rnd aes_BlockSize) as [[iv|e] rest] eqn:Hrd; [|discriminate].
  apply io_ReadFull_Ok in Hrd as [-> Hiv].
  intros [= <- <- <-]. exists iv. repeat split; assumption || reflexivity.
Qed.

(** With a working [scrypt] and sixteen bytes of entropy [Encrypt]
    does not fail. *)
Lemma Encrypt_succeeds (data key rnd : bytes) :
  16 <= length rnd ->
  exists E g, Encrypt L data key rnd = (Ok (E, g), drop 16 rnd).
Proof using scrypt_contract.
  intros Hrnd. unfold Encrypt.
  rewrite aes_NewCipher_generate32ByteKey.
  change (gzip_NewWriterLevel gzip_BestCompression) with (@None error). cbn iota.
  unfold io_ReadFull. change (aes_BlockSize =? 0)%nat with false. cbn iota.
  destruct (length rnd =? 0)%nat eqn:H0; [apply Nat.eqb_eq in H0; lia|].
  destruct (length rnd <? aes_BlockSize)%nat eqn:Hlt;
    [apply Nat.ltb_lt in Hlt; unfold aes_BlockSize in Hlt; lia|].
  eexists _, _. reflexivity.
Qed.

Lemma Decrypt_envelope (E : bytes) (sig : string) (key iv c : bytes) :
  E = iv ++ c -> length iv = 16 ->
  hex_DecodeString sig = (hmac_sha256 L key E, None) ->
  aes_NewCipher L (generate32ByteKey L key)
  = Ok (aes_encrypt_block L (generate32ByteKey L key)) ->
  let dectext :=
    XORKeyStream (NewCFBDecrypter (aes_encrypt_block L (generate32ByteKey L key)) iv) c in
  Decrypt L E sig key
  = match gzip_decompress L dectext with
    | gzip_bad_header e =>
        {| run_ret := None; run_err := Some e; run_data := iv ++ dectext;
           run_calls := [call_hex_DecodeString; call_hmac; call_generate32ByteKey;
                         call_aes_NewCipher; call_XORKeyStream; call_gzip_NewReader] |}
    | gzip_read out e =>
        {| run_ret := Some out; run_err := e; run_data := iv ++ dectext;
           run_calls := [call_hex_DecodeString; call_hmac; call_generate32ByteKey;
                         call_aes_NewCipher; call_XORKeyStream; call_gzip_NewReader;
                         call_ReadAll] |}
    end.
Proof.
  intros -> Hiv Hsig Haes dectext. unfold Decrypt.
  destruct (length (iv ++ c) <? aes_BlockSize)%nat eqn:Hlt.
  { apply Nat.ltb_lt in Hlt. rewrite length_app in Hlt.
    unfold aes_BlockSize in Hlt. lia. }
  rewrite Hsig. unfold hmac_Equal.
  rewrite bool_decide_eq_true_2 by reflexivity. cbn [negb].
  rewrite Haes.
  replace (take aes_BlockSize (iv ++ c)) with iv
    by (unfold aes_BlockSize; rewrite take_app_length'; auto).
  replace (drop aes_BlockSize (iv ++ c)) with c
    by (unfold aes_BlockSize; rewrite drop_app_length'; auto).
  reflexivity.
Qed.

(** C4.  Key derivation never fails and always yields 32 bytes: the key is
    what [scrypt.Key] returns, without error, for the secret, the 64-byte
    SHA-512 digest of the secret as salt, N = 16384, r = 8, p = 1 and a key
    length of 32. *)
Theorem generate32ByteKey_spec (input : bytes) :
  length (sha512_Sum512 L input) = 64
  /\ scrypt_Key L input (sha512_Sum512 L input) 16384 8 1 32
     = (generate32ByteKey L input, None)
  /\ length (generate32ByteKey L input) = 32.
Proof using sha512_size scrypt_contract.
  split; [apply sha512_size | apply generate32ByteKey_scrypt].
Qed.

(** [Decrypt] of what [Encrypt] returned, under any spelling [sig] of the
    signature's bytes. *)
Lemma Decrypt_accepts (data key rnd E : bytes) (g sig : string) (rnd' : bytes) :
  Encrypt L data key rnd = (Ok (E, g), rnd') ->
  hex_DecodeString sig = (hmac_sha256 L key E, None) ->
  run_ret (Decrypt L E sig key) = Some data
  /\ run_err (Decrypt L E sig key) = None.
Proof using gzip_roundtrip.
  intros Henc Hsig.
  destruct (Encrypt_Ok _ _ _ _ _ _ Henc) as (iv & _ & Hiv & Haes & HE & Hg).
  rewrite (Decrypt_envelope E sig key iv _ HE Hiv Hsig Haes).
  rewrite CFB_decrypt_encrypt, gzip_roundtrip. split; reflexivity.
Qed.

(** C1.  Whatever the secret, the plaintext and the IV drawn: when
    [Encrypt] returns an envelope and a signature, [Decrypt] of them under
    the same secret returns the plaintext and no error. *)
Theorem Decrypt_Encrypt (data key rnd E : bytes) (g : string) (rnd' : bytes) :
  Encrypt L data key rnd = (Ok (E, g), rnd') ->
  run_ret (Decrypt L E g key) = Some data
  /\ run_err (Decrypt L E g key) = None.
Proof using gzip_roundtrip.
  intros Henc. apply (Decrypt_accepts data key rnd E g g rnd' Henc).
  destruct (Encrypt_Ok _ _ _ _ _ _ Henc) as (iv & _ & _ & _ & _ & ->).
  apply hex_DecodeString_EncodeToString.
Qed.

(** The run of [Decrypt] that stops at the HMAC comparison. *)
Lemma Decrypt_rejects (data : bytes) (sig : string) (key sig_mac : bytes) :
  16 <= length data ->
  hex_DecodeString sig = (sig_mac, None) ->
  hmac_sha256 L key data <> sig_mac ->
  Decrypt L data sig key
  = {| run_ret := None;
       run_err := Some ErrSignatureMismatch;
       run_data := data;
       run_calls := [call_hex_DecodeString; call_hmac] |}.
Proof.
  intros Hlen Hsig Hmac. unfold Decrypt.
  destruct (length data <? aes_BlockSize)%nat eqn:Hlt.
  { apply Nat.ltb_lt in Hlt. unfold aes_BlockSize in Hlt. lia. }
  rewrite Hsig. unfold hmac_Equal.
  rewrite bool_decide_eq_false_2 by congruence.
  reflexivity.
Qed.

(** C2.  On an envelope of at least 16 bytes whose HMAC under the raw
    secret differs from the decoded signature, [Decrypt] returns the
    signature-mismatch error and no plaintext, and has called nothing after
    the HMAC: no key derivation, no cipher, no [XORKeyStream], no
    decompression.  Its caller's buffer, ciphertext included, is as it
    was. *)
Theorem Decrypt_mac_mismatch (data : bytes) (sig : string) (key sig_mac : bytes) :
  16 <= length data ->
  hex_DecodeString sig = (sig_mac, None) ->
  hmac_sha256 L key data <> sig_mac ->
  let r := Decrypt L data sig key in
  run_err r = Some ErrSignatureMismatch
  /\ run_ret r = None
  /\ run_calls r = [call_hex_DecodeString; call_hmac]
  /\ ~ In call_XORKeyStream (run_calls r)
  /\ run_data r = data
  /\ drop 16 (run_data r) = drop 16 data.
Proof.
  intros Hlen Hsig Hmac r. subst r.
  rewrite (Decrypt_rejects data sig key sig_mac Hlen Hsig Hmac). cbn.
  repeat split; try reflexivity.
  intros [H|[H|[]]]; discriminate.
Qed.

(** C3.  The envelope [Encrypt] returns is the 16-byte IV it drew followed
    by the CFB transform of the gzip-compressed plaintext, which is as long
    as the compressed plaintext; the signature is the hex encoding of the
    32-byte HMAC of the whole envelope under the raw secret: 64 characters,
    all in [0-9a-f]. *)
Theorem Encrypt_envelope (data key rnd E : bytes) (g : string) (rnd' : bytes) :
  Encrypt L data key rnd = (Ok (E, g), rnd') ->
  let compressed := gzip_compress L gzip_BestCompression data in
  let block := aes_encrypt_block L (generate32ByteKey L key) in
  take 16 E = take 16 rnd
  /\ length (take 16 E) = 16
  /\ drop 16 E = XORKeyStream (NewCFBEncrypter block (take 16 E)) compressed
  /\ length (drop 16 E) = length compressed
  /\ length E = 16 + length compressed
  /\ g = hex_EncodeToString (hmac_sha256 L key E)
  /\ length (hmac_sha256 L key E) = 32
  /\ String.length g = 64
  /\ sha256HexRegexp_MatchString g = true.
Proof using hmac_size.
  intros Henc compressed block.
  destruct (Encrypt_Ok _ _ _ _ _ _ Henc) as (iv & Hrnd & Hiv & _ & HE & Hg).
  fold compressed block in HE.
  assert (Htake : take 16 E = iv) by (rewrite HE, take_app_length'; auto).
  assert (Hdrop : drop 16 E = XORKeyStream (NewCFBEncrypter block iv) compressed)
    by (rewrite HE, drop_app_length'; auto).
  rewrite Htake, Hdrop, XORKeyStream_length.
  repeat split; try assumption.
  - rewrite Hrnd, take_app_length'; auto.
  - rewrite HE, length_app, XORKeyStream_length. lia.
  - apply hmac_size.
  - rewrite Hg, hex_EncodeToString_length, hmac_size. reflexivity.
  - rewrite Hg. apply hex_EncodeToString_matches, hmac_size.
Qed.

(** C10.  [Decrypt] works in its caller's buffer.  Once the HMAC matches,
    the bytes after the 16-byte IV are replaced by their CFB decryption,
    also when decompression then fails; when the HMAC does not match, the
    buffer is as it was. *)
Theorem Decrypt_buffer (data : bytes) (sig : string) (key sig_mac : bytes) :
  16 <= length data ->
  hex_DecodeString sig = (sig_mac, None) ->
  let r := Decrypt L data sig key in
  let iv := take 16 data in
  let dectext :=
    XORKeyStream (NewCFBDecrypter (aes_encrypt_block L (generate32ByteKey L key)) iv)
                 (drop 16 data) in
  (hmac_sha256 L key data = sig_mac ->
   run_data r = iv ++ dectext
   /\ (forall e, gzip_decompress L dectext = gzip_bad_header e ->
                 run_err r = Some e /\ run_ret r = None)
   /\ (forall out e, gzip_decompress L dectext = gzip_read out (Some e) ->
                     run_err r = Some e))
  /\ (hmac_sha256 L key data <> sig_mac -> run_data r = data).
Proof using scrypt_contract.
  intros Hlen Hsig r iv dectext. split.
  - intros Hmac. subst sig_mac r.
    assert (Hiv : length iv = 16) by (subst iv; rewrite length_take; lia).
    rewrite (Decrypt_envelope data sig key iv (drop 16 data));
      [ | subst iv; symmetry; apply take_drop | exact Hiv | exact Hsig
        | apply aes_NewCipher_generate32ByteKey ].
    fold dectext.
    destruct (gzip_decompress L dectext) as [e0|out e0]; cbn;
      repeat split; try reflexivity; intros; congruence.
  - intros Hmac. subst r.
    rewrite (Decrypt_rejects data sig key sig_mac Hlen Hsig Hmac).
    reflexivity.
Qed.

End EnvelopeFacts.

(** ** One flipped bit in a signature *)

Lemma flipped_digit_ok_all (v : byte) (k : nat) :
  k < 8 -> flipped_digit_ok v k = true.
Proof.
  intros Hk.
  do 8 (destruct k as [|k]; [destruct v; vm_compute; reflexivity|]). lia.
Qed.

Lemma flipped_hi_digit (v : byte) (k : nat) (a' : N) :
  k < 8 ->
  fromHexChar (flip_char k (hex_digit (hi_digit v))) = Some a' ->
  a' <> hi_digit v ->
  byte_of_N (N.lor (N.shiftl a' 4) (lo_digit v)) <> v.
Proof.
  intros Hk Ha Hne. pose proof (flipped_digit_ok_all v k Hk) as Hok.
  unfold flipped_digit_ok in Hok. rewrite Ha in Hok.
  apply andb_true_iff in Hok as [Hok _].
  apply orb_true_iff in Hok as [Hok|Hok].
  - apply N.eqb_eq in Hok. contradiction.
  - apply negb_true_iff in Hok. intros Heq.
    rewrite (Byte.byte_dec_lb Heq) in Hok. discriminate.
Qed.

Lemma flipped_lo_digit (v : byte) (k : nat) (b' : N) :
  k < 8 ->
  fromHexChar (flip_char k (hex_digit (lo_digit v))) = Some b' ->
  b' <> lo_digit v ->
  byte_of_N (N.lor (N.shiftl (hi_digit v) 4) b') <> v.
Proof.
  intros Hk Hb Hne. pose proof (flipped_digit_ok_all v k Hk) as Hok.
  unfold flipped_digit_ok in Hok. rewrite Hb in Hok.
  apply andb_true_iff in Hok as [_ Hok].
  apply orb_true_iff in Hok as [Hok|Hok].
  - apply N.eqb_eq in Hok. contradiction.
  - apply negb_true_iff in Hok. intros Heq.
    rewrite (Byte.byte_dec_lb Heq) in Hok. discriminate.
Qed.

Lemma hex_DecodeString_flipped (m : bytes) (i k : nat) (c : ascii) :
  k < 8 ->
  String.get i (hex_EncodeToString m) = Some c ->
  decodes_flipped m c (flip_char k c)
                  (flip_bit_in_string i k (hex_EncodeToString m)).
Proof.
  intros Hk. revert i.
  induction m as [|v m IH]; intros i Hget; [discriminate|].
  destruct (hex_byte_roundtrip v) as (Hhi & Hlo & Hv).
  fold (hi_digit v) in Hhi, Hv. fold (lo_digit v) in Hlo, Hv.
  cbn [hex_EncodeToString] in *. fold (hi_digit v) (lo_digit v) in *.
  unfold decodes_flipped.
  destruct i as [|[|i]]; cbn [String.get flip_bit_in_string] in *.
  - (* the first digit of the byte *)
    injection Hget as <-.
    cbn [hex_DecodeString].
    destruct (fromHexChar (flip_char k (hex_digit (hi_digit v)))) as [a'|] eqn:Ha;
      [rewrite Hlo | reflexivity].
    rewrite hex_DecodeString_EncodeToString, Hhi.
    destruct (decide (Some (hi_digit v) = Some a')) as [[= <-]|Hne].
    + rewrite Hv. reflexivity.
    + eexists. split; [reflexivity|].
      intros Heq. apply (flipped_hi_digit v k a' Hk Ha); congruence.
  - (* the second digit of the byte *)
    injection Hget as <-.
    cbn [hex_DecodeString]. rewrite Hhi.
    destruct (fromHexChar (flip_char k (hex_digit (lo_digit v)))) as [b'|] eqn:Hb;
      [|reflexivity].
    rewrite hex_DecodeString_EncodeToString, Hlo.
    destruct (decide (Some (lo_digit v) = Some b')) as [[= <-]|Hne].
    + rewrite Hv. reflexivity.
    + eexists. split; [reflexivity|].
      intros Heq. apply (flipped_lo_digit v k b' Hk Hb); congruence.
  - (* a later byte *)
    specialize (IH i Hget). unfold decodes_flipped in IH.
    cbn [hex_DecodeString]. rewrite Hhi, Hlo.
    destruct (hex_DecodeString (flip_bit_in_string i k (hex_EncodeToString m)))
      as [out err].
    destruct (fromHexChar (flip_char k c)) as [v'|]; [|exact IH].
    destruct (decide (fromHexChar c = Some v')).
    + injection IH as -> ->. rewrite Hv. reflexivity.
    + destruct IH as (m' & [= -> ->] & Hne).
      eexists. split; [reflexivity|]. rewrite Hv. congruence.
Qed.

Lemma flip_bit_at_length (i k : nat) (l : bytes) :
  length (flip_bit_at i k l) = length l.
Proof.
  unfold flip_bit_at. destruct (l !! i); [apply length_insert | reflexivity].
Qed.

Section Tampering.

Variable L : GoLib.

Hypothesis gzip_roundtrip : forall level data,
  gzip_decompress L (gzip_compress L level data) = gzip_read data None.

(** C6, as the code has it.  Take what [Encrypt] returned and flip one
    bit.  In the envelope: [Decrypt] fails with the signature-mismatch
    error whenever the HMAC of the changed envelope differs from that of
    the original.  In the signature: when the changed character is no hex
    digit, [Decrypt] fails with [hex.InvalidByteError]; when it is a hex
    digit of another value, with the signature-mismatch error; when it is
    the same digit in the other letter case, [Decrypt] returns the
    plaintext. *)
Theorem Decrypt_one_bit_flipped
    (data key rnd E : bytes) (g : string) (rnd' : bytes) (i k : nat) :
  Encrypt L data key rnd = (Ok (E, g), rnd') ->
  k < 8 ->
  (hmac_sha256 L key (flip_bit_at i k E) <> hmac_sha256 L key E ->
   let r := Decrypt L (flip_bit_at i k E) g key in
   run_err r = Some ErrSignatureMismatch /\ run_ret r = None)
  /\ (forall c, String.get i g = Some c ->
      let r := Decrypt L E (flip_bit_in_string i k g) key in
      match fromHexChar (flip_char k c) with
      | None =>
          run_err r = Some (hex_InvalidByteError (flip_char k c))
          /\ run_ret r = None
      | Some v' =>
          if decide (fromHexChar c = Some v')
          then run_ret r = Some data /\ run_err r = None
          else run_err r = Some ErrSignatureMismatch /\ run_ret r = None
      end).
Proof.
  intros Henc Hk.
  destruct (Encrypt_Ok L _ _ _ _ _ _ Henc) as (iv & _ & Hiv & _ & HE & Hg).
  assert (HlenE : 16 <= length E)
    by (rewrite HE, length_app; lia).
  split.
  - intros Hmac r. subst r.
    rewrite (Decrypt_rejects L (flip_bit_at i k E) g key (hmac_sha256 L key E)).
    + split; reflexivity.
    + rewrite flip_bit_at_length. exact HlenE.
    + rewrite Hg. apply hex_DecodeString_EncodeToString.
    + exact Hmac.
  - intros c Hget r.
    rewrite Hg in Hget.
    pose proof (hex_DecodeString_flipped _ i k c Hk Hget) as Hdec.
    rewrite <- Hg in Hdec. unfold decodes_flipped in Hdec.
    destruct (fromHexChar (flip_char k c)) as [v'|].
    + destruct (decide (fromHexChar c = Some v')).
      * subst r. eapply Decrypt_accepts; eauto.
      * destruct Hdec as (m' & Hdec & Hne). subst r.
        rewrite (Decrypt_rejects L E _ key m' HlenE Hdec); [|congruence].
        split; reflexivity.
    + subst r. unfold Decrypt.
      destruct (length E <? aes_BlockSize)%nat eqn:Hlt.
      { apply Nat.ltb_lt in Hlt. unfold aes_BlockSize in Hlt. lia. }
      destruct (hex_DecodeString (flip_bit_in_string i k g)) as [out err].
      cbn in Hdec. subst err. split; reflexivity.
Qed.

End Tampering.

(** ** Modes, names and the file-system calls *)

Lemma regular_mode_type (perm : Z) :
  Z.land (Z.land perm os_ModePerm) os_ModeType = 0%Z.
Proof.
  rewrite <- Z.land_assoc.
  change (Z.land os_ModePerm os_ModeType) with 0%Z.
  apply Z.land_0_r.
Qed.

Lemma symlink_mode_type :
  Z.land (Z.lor os_ModeSymlink os_ModePerm) os_ModeType <> 0%Z.
Proof. vm_compute. discriminate. Qed.

Lemma append_empty (s : string) : s +:+ "" = s.
Proof.
  induction s as [|c s IH]; [reflexivity|].
  change (String c s +:+ "") with (String c (s +:+ "")). rewrite IH. reflexivity.
Qed.

Lemma append_snoc (s1 s2 : string) (c : ascii) :
  (s1 +:+ String c "") +:+ s2 = s1 +:+ String c s2.
Proof.
  induction s1 as [|c1 s1 IH]; [reflexivity|].
  change ((String c1 s1 +:+ String c "") +:+ s2)
    with (String c1 ((s1 +:+ String c "") +:+ s2)).
  rewrite IH. reflexivity.
Qed.

Lemma components_no_slash (s cur : string) :
  forallb is_lower_hex (list_ascii_of_string s) = true ->
  components s cur = [cur +:+ s].
Proof.
  revert cur. induction s as [|c s IH]; intros cur Hs; cbn [components].
  - rewrite append_empty. reflexivity.
  - cbn [list_ascii_of_string forallb] in Hs.
    apply andb_true_iff in Hs as [Hc Hs].
    destruct (Ascii.eqb c "/") eqn:Hslash.
    + apply Ascii.eqb_eq in Hslash. subst c. discriminate.
    + rewrite (IH _ Hs), append_snoc. reflexivity.
Qed.

Lemma filepath_Join_signature (dir : pathname) (sig : string) :
  sha256HexRegexp_MatchString sig = true ->
  filepath_Join dir sig = dir ++ [sig].
Proof.
  unfold sha256HexRegexp_MatchString. intros Hm.
  apply andb_true_iff in Hm as [Hlen Hhex].
  apply Nat.eqb_eq in Hlen.
  unfold filepath_Join. rewrite (components_no_slash sig "" Hhex).
  change ("" +:+ sig) with sig.
  cbn [fold_left]. unfold clean_component.
  destruct sig as [|c1 [|c2 [|c3 sig]]]; try discriminate.
  cbn [String.eqb].

  repeat match goal with
         | |- context [if Ascii.eqb ?a ?b then _ else _] => destruct (Ascii.eqb a b)
         end; reflexivity.
Qed.

Lemma follow_regular (m : gmap pathname node) (p : pathname) perm t data :
  m !! p = Some (Regular perm t data) ->
  follow maxSymlinks m p = inl (p, Regular perm t data).
Proof. intros H. cbn [maxSymlinks follow]. rewrite H. reflexivity. Qed.

Lemma os_Stat_regular (w : world) (p : pathname) perm t data :
  fs w !! p = Some (Regular perm t data) ->
  os_Stat p w = (Returns (node_info (filepath_Base p) (Regular perm t data)), w).
Proof. intros H. unfold os_Stat. rewrite (follow_regular _ _ _ _ _ H). reflexivity. Qed.

Lemma ioutil_ReadFile_regular (w : world) (p : pathname) perm t data :
  fs w !! p = Some (Regular perm t data) ->
  ioutil_ReadFile p w = (Returns data, w).
Proof. intros H. unfold ioutil_ReadFile. rewrite (follow_regular _ _ _ _ _ H). reflexivity. Qed.

(** Exclusive creation: the name was free and now holds an empty regular
    file; a failed call changes nothing. *)
Lemma os_OpenFile_excl (name : pathname) (perm : Z) (w : world) o w' :
  os_OpenFile name excl_create perm w = (o, w') ->
  match o with
  | Returns f =>
      f = name /\ fs w !! name = None
      /\ w' = set_fs (<[name := Regular (Z.land perm os_ModePerm) (now w) []]> (fs w)) w
  | Fails e =>
      w' = w /\ (is_Some (fs w !! name) -> e = os_PathError "open" name EEXIST)
  | _ => False
  end.
Proof.
  unfold os_OpenFile.
  change (has_flag excl_create os_O_CREATE && has_flag excl_create os_O_EXCL) with true.
  cbn [negb].
  destruct (fs w !! name) as [n|] eqn:Hname.
  - intros [= <- <-]. split; [reflexivity|]. reflexivity.
  - destruct name as [|c name'].
    + intros [= <- <-]. split; [reflexivity|]. intros [? [=]].
    + destruct (fs w !! filepath_Dir (c :: name')) as [[]|];
        intros [= <- <-]; repeat split; try reflexivity; intros [? [=]].
Qed.

(** ** EncryptFile *)

Section EncryptFileFacts.

Variable L : GoLib.

Hypothesis hmac_size : forall key data, length (hmac_sha256 L key data) = 32.

Lemma Encrypt_signature_matches (data key rnd E : bytes) (sig : string) rnd' :
  Encrypt L data key rnd = (Ok (E, sig), rnd') ->
  sha256HexRegexp_MatchString sig = true.
Proof using hmac_size.
  intros Henc.
  destruct (Encrypt_Ok L _ _ _ _ _ _ Henc) as (iv & _ & _ & _ & _ & ->).
  apply hex_EncodeToString_matches, hmac_size.
Qed.

(** [EncryptFile] on a regular file, call by call. *)
Lemma EncryptFile_regular_run (path : pathname) (key : bytes) (w : world)
    perm t data :
  fs w !! path = Some (Regular perm t data) ->
  let hdr := {| hdr_Name := filepath_Base path;
                hdr_Mode := Z.land perm os_ModePerm;
                hdr_Size := Z.of_nat (length data);
                hdr_ModTime := t |} in
  EncryptFile L path key w
  = match tar_archive L hdr data with
    | Err e => (Fails e, w)
    | Ok buf =>
        match Encrypt L buf key (rand_Reader w) with
        | (Err e, rnd') =>
            (Fails e, {| fs := fs w; rand_Reader := rnd';
                         free_space := free_space w; now := now w |})
        | (Ok (E, sig), rnd') =>
            let w1 := {| fs := fs w; rand_Reader := rnd';
                         free_space := free_space w; now := now w |} in
            let new_file_path := filepath_Dir path ++ [sig] in
            match os_OpenFile new_file_path excl_create 256 w1 with
            | (Returns _, w2) =>
                let n := Nat.min (length E) (free_space w) in
                let w3 := {| fs := <[new_file_path := Regular 256 (now w) (take n E)]> (fs w);
                             rand_Reader := rnd';
                             free_space := free_space w - n;
                             now := now w |} in
                if (n <? length E)%nat
                then (Fails (os_PathError "write" new_file_path ENOSPC), w3)
                else (Returns new_file_path, w3)
            | (Fails e, w2) => (Fails e, w2)
            | (Panics msg, w2) => (Panics msg, w2)
            | (OutOfFuel, w2) => (OutOfFuel, w2)
            end
        end
    end.
Proof using hmac_size.
  intros Hpath hdr. unfold EncryptFile, bind at 1.
  rewrite (os_Stat_regular w path _ _ _ Hpath).
  cbn [node_info node_Mode fi_Mode fi_Name fi_Size fi_ModTime].
  rewrite regular_mode_type. cbn [Z.eqb negb].
  unfold bind at 1. rewrite (ioutil_ReadFile_regular w path _ _ _ Hpath).
  unfold bind at 1. fold hdr.
  destruct (tar_archive L hdr data) as [buf|e]; cbn [lift ret fail]; [|reflexivity].
  unfold bind at 1. unfold Encrypt_call.
  destruct (Encrypt L buf key (rand_Reader w)) as [[[E sig]|e] rnd'] eqn:Henc;
    [|reflexivity].
  rewrite (filepath_Join_signature _ sig (Encrypt_signature_matches _ _ _ _ _ _ Henc)).
  unfold bind at 1. fold excl_create.
  set (w1 := {| fs := fs w; rand_Reader := rnd' |}).
  set (new_file_path := filepath_Dir path ++ [sig]).
  destruct (os_OpenFile new_file_path excl_create 256 w1) as [[f| | |] w2] eqn:Hopen;
    try reflexivity.
  apply os_OpenFile_excl in Hopen as (-> & Hfree & ->).
  unfold bind at 1, file_Write.
  cbn [fs set_fs free_space now rand_Reader w1].
  rewrite lookup_insert_eq. rewrite insert_insert_eq.
  change (Z.land 256 os_ModePerm) with 256%Z. cbn [app].
  destruct (Nat.min (length E) (free_space w) <? length E)%nat eqn:Hshort.
  - reflexivity.
  - apply Nat.ltb_ge in Hshort.
    replace (Nat.min (length E) (free_space w) =? length E)%nat with true
      by (symmetry; apply Nat.eqb_eq; lia).
    reflexivity.
Qed.

(** C7.  [EncryptFile] on a regular file.  Whatever the outcome, every
    entry that existed is still there, unchanged: the source is neither
    deleted nor modified.  When it returns a path, the file system is the
    old one with exactly that one entry added: a regular file in the
    source's directory, named by the 64-character lowercase hex signature
    [Encrypt] returned, with permission 0400, holding the whole envelope,
    at a name that was free.  When the name is taken, the call fails with
    EEXIST and changes nothing; when the disk cannot take the whole
    envelope, the call fails. *)
Theorem EncryptFile_creates_artifact (path : pathname) (key : bytes) (w : world)
    perm t data o w' :
  fs w !! path = Some (Regular perm t data) ->
  EncryptFile L path key w = (o, w') ->
  let hdr := {| hdr_Name := filepath_Base path;
                hdr_Mode := Z.land perm os_ModePerm;
                hdr_Size := Z.of_nat (length data);
                hdr_ModTime := t |} in
  (forall p n, fs w !! p = Some n -> fs w' !! p = Some n)
  /\ (forall new_file_path, o = Returns new_file_path ->
      exists buf E sig,
        tar_archive L hdr data = Ok buf
        /\ Encrypt L buf key (rand_Reader w) = (Ok (E, sig), rand_Reader w')
        /\ String.length sig = 64
        /\ sha256HexRegexp_MatchString sig = true
        /\ new_file_path = filepath_Dir path ++ [sig]
        /\ fs w !! new_file_path = None
        /\ fs w' = <[new_file_path := Regular 256 (now w) E]> (fs w))
  /\ (forall buf E sig rnd',
      tar_archive L hdr data = Ok buf ->
      Encrypt L buf key (rand_Reader w) = (Ok (E, sig), rnd') ->
      (is_Some (fs w !! (filepath_Dir path ++ [sig])) ->
       o = Fails (os_PathError "open" (filepath_Dir path ++ [sig]) EEXIST)
       /\ fs w' = fs w)
      /\ (free_space w < length E -> exists e, o = Fails e)).
Proof using hmac_size.
  intros Hpath Hrun hdr.
  rewrite (EncryptFile_regular_run path key w perm t data Hpath) in Hrun.
  fold hdr in Hrun.
  destruct (tar_archive L hdr data) as [buf|e].
  2:{ injection Hrun as <- <-.
      split; [auto|]. split; [intros ? [=] | intros ? ? ? ? [=]]. }
  destruct (Encrypt L buf key (rand_Reader w)) as [[[E sig]|e] rnd'] eqn:Henc.
  2:{ injection Hrun as <- <-.
      split; [auto|]. split; [intros ? [=]|].
      intros buf0 E0 sig0 rnd0 [= <-] Henc0. congruence. }
  pose proof (Encrypt_signature_matches _ _ _ _ _ _ Henc) as Hsig.
  cbv zeta in Hrun.
  destruct (os_OpenFile _ excl_create 256 _) as [[f| | |] w2] eqn:Hopen;
    apply os_OpenFile_excl in Hopen; try contradiction.
  - (* the artifact was created *)
    destruct Hopen as (-> & Hfree & ->). cbn [fs] in Hfree.
    assert (Hframe : forall E',
      forall p n, fs w !! p = Some n ->
        <[filepath_Dir path ++ [sig] := Regular 256 (now w) E']> (fs w) !! p = Some n).
    { intros E' p n Hp. rewrite lookup_insert_ne; [exact Hp | congruence]. }
    destruct (_ <? _)%nat eqn:Hshort in Hrun; injection Hrun as <- <-;
      cbn [fs rand_Reader].
    + split; [apply Hframe|]. split; [intros ? [=]|].
      intros buf0 E0 sig0 rnd0 [= <-] Henc0.
      rewrite Henc in Henc0. injection Henc0 as <- <- <-. split.
      * intros [n Hn]. congruence.
      * intros _. eexists. reflexivity.
    + apply Nat.ltb_ge in Hshort.
      rewrite take_ge by lia.
      split; [apply Hframe|]. split.
      * intros new_file_path [= <-]. exists buf, E, sig.
        unfold sha256HexRegexp_MatchString in Hsig.
        apply andb_true_iff in Hsig as [Hlen Hhex]. apply Nat.eqb_eq in Hlen.
        repeat split; try reflexivity; try assumption.
        unfold sha256HexRegexp_MatchString. rewrite Hlen, Hhex. reflexivity.
      * intros buf0 E0 sig0 rnd0 [= <-] Henc0.
      rewrite Henc in Henc0. injection Henc0 as <- <- <-. split.
        -- intros [n Hn]. congruence.
        -- intros Hspace. lia.
  - (* the artifact could not be created *)
    destruct Hopen as [-> Hexist]. injection Hrun as <- <-. cbn [fs].
    split; [auto|]. split; [intros ? [=]|].
    intros buf0 E0 sig0 rnd0 [= <-] Henc0.
      rewrite Henc in Henc0. injection Henc0 as <- <- <-. split.
    + intros Hsome. rewrite (Hexist Hsome). split; reflexivity.
    + intros _. eexists. reflexivity.
Qed.

End EncryptFileFacts.

(** ** DecryptFile *)

Lemma follow_exists (fuel : nat) (m : gmap pathname node) (p q : pathname) (n : node) :
  follow fuel m p = inl (q, n) ->
  is_Some (m !! p) /\ m !! q = Some n /\ forall target, n <> Symlink target.
Proof.
  revert p. induction fuel as [|fuel IH]; intros p; cbn [follow];
    destruct (m !! p) as [[| |target|]|] eqn:Hp; try discriminate;
    try (intros [= <- <-]; repeat split; eauto; discriminate).
  intros H. destruct (IH _ H) as (_ & Hq & Hn). eauto.
Qed.

Lemma follow_not_directory (m : gmap pathname node) (p q : pathname) (n : node) :
  follow maxSymlinks m p = inl (q, n) ->
  Z.land (node_Mode n) os_ModeType = 0%Z ->
  forall perm t, m !! p <> Some (Directory perm t).
Proof.
  cbn [maxSymlinks follow]. intros Hf Hmode perm t Hp. rewrite Hp in Hf.
  injection Hf as <- <-. revert Hmode. cbn [node_Mode].
  intros Hmode.
  assert (Hbit : Z.testbit (Z.land (Z.lor os_ModeDir (Z.land perm os_ModePerm)) os_ModeType) 31
                 = false) by (rewrite Hmode; apply Z.testbit_0_l).
  rewrite Z.land_spec, Z.lor_spec in Hbit.
  change (Z.testbit os_ModeDir 31) with true in Hbit.
  change (Z.testbit os_ModeType 31) with true in Hbit.
  discriminate.
Qed.

(** A write changes no entry but the file written to. *)
Lemma file_Write_frame (f : File) (b : bytes) (w : world) o w' (p : pathname) :
  file_Write f b w = (o, w') -> p <> f -> fs w' !! p = fs w !! p.
Proof.
  unfold file_Write. intros Hw Hne.
  destruct (fs w !! f) as [[perm t content| | |]|];
    injection Hw as <- <-; try reflexivity.
  cbn [fs]. apply lookup_insert_ne. congruence.
Qed.

Lemma file_Write_regular (f : File) (b : bytes) (w : world) o w' :
  file_Write f b w = (o, w') ->
  (exists perm t c, fs w !! f = Some (Regular perm t c)) ->
  exists perm t c, fs w' !! f = Some (Regular perm t c).
Proof.
  unfold file_Write. intros Hw (perm & t & c & Hf). rewrite Hf in Hw.
  injection Hw as <- <-. cbn [fs]. rewrite lookup_insert_eq. eauto.
Qed.

Lemma os_Chtimes_frame (name : pathname) (atime mtime : Z) (w : world) o w'
    (p : pathname) :
  os_Chtimes name atime mtime w = (o, w') ->
  (exists perm t c, fs w !! name = Some (Regular perm t c)) ->
  p <> name -> fs w' !! p = fs w !! p.
Proof.
  unfold os_Chtimes. intros Hc (perm & t & c & Hname) Hne.
  rewrite (follow_regular _ _ _ _ _ Hname) in Hc.
  injection Hc as <- <-. cbn [fs set_fs]. apply lookup_insert_ne. congruence.
Qed.

Section DecryptFileFacts.

Variable L : GoLib.

(** What a successful [DecryptFile] did to the file system: it created
    the file it names and touched nothing else. *)
Lemma DecryptFile_Returns (path : pathname) (key : bytes) (w : world) orig w' :
  DecryptFile L path key w = (Returns orig, w') ->
  sha256HexRegexp_MatchString (filepath_Base path) = true
  /\ (exists q n, follow maxSymlinks (fs w) path = inl (q, n)
                  /\ Z.land (node_Mode n) os_ModeType = 0%Z)
  /\ fs w !! orig = None
  /\ (forall p, p <> orig -> fs w' !! p = fs w !! p).
Proof.
  unfold DecryptFile.
  destruct (sha256HexRegexp_MatchString (filepath_Base path)); [|discriminate].
  cbn [negb]. unfold bind at 1, os_Stat.
  destruct (follow maxSymlinks (fs w) path) as [[q n]|e] eqn:Hfollow; [|discriminate].
  cbn [node_info fi_Mode].
  destruct (Z.land (node_Mode n) os_ModeType =? 0)%Z eqn:Hmode; [|discriminate].
  apply Z.eqb_eq in Hmode. cbn [negb].
  unfold bind at 1, ioutil_ReadFile. rewrite Hfollow.
  destruct n as [perm t content| | |]; try discriminate.
  unfold bind at 1, Decrypt_call.
  destruct (run_err (Decrypt L content (filepath_Base path) key)); [discriminate|].
  cbn [ret]. set (dec_data := default [] _).
  unfold bind at 1.
  destruct (match next_err (tar_read L dec_data) with
            | Some err => if bool_decide (err <> io_EOF) then fail err else ret tt
            | None => ret tt
            end w) as [[[]| | |] w0] eqn:Hnext; try discriminate.
  assert (w0 = w) as ->.
  { destruct (next_err (tar_read L dec_data)) as [err|];
      [destruct (bool_decide (err <> io_EOF))|];
      unfold fail, ret in Hnext; congruence. }
  destruct (next_hdr (tar_read L dec_data)) as [hdr|]; [|discriminate].
  fold excl_create. unfold bind at 1.
  destruct (os_OpenFile _ excl_create _ w) as [[f| | |] w1] eqn:Hopen; try discriminate.
  apply os_OpenFile_excl in Hopen as (-> & Hfree & ->).
  set (orig_file_path := filepath_Join (filepath_Dir path) (hdr_Name hdr)) in *.
  set (w1 := set_fs _ w).
  assert (Hreg1 : exists perm t c, fs w1 !! orig_file_path = Some (Regular perm t c)).
  { subst w1. cbn [fs set_fs]. rewrite lookup_insert_eq. eauto. }
  unfold bind at 1, io_Copy, bind at 1.
  destruct (file_Write orig_file_path (entry_body (tar_read L dec_data)) w1)
    as [[[n werr]| | |] w2] eqn:Hwrite; try discriminate.
  pose proof (file_Write_regular _ _ _ _ _ Hwrite Hreg1) as Hreg2.
  pose proof (fun p => file_Write_frame _ _ _ _ _ p Hwrite) as Hframe2.
  destruct werr as [e|]; cbn [ret].
  { unfold bind, file_Close, ret, fail. discriminate. }
  destruct (entry_err (tar_read L dec_data)) as [e|].
  { unfold bind, file_Close, ret, fail. discriminate. }
  destruct (Z.of_nat n =? hdr_Size hdr)%Z; cbn [negb].
  2:{ unfold bind, file_Close, ret, fail. discriminate. }
  unfold bind at 1, file_Close, ret. unfold bind at 1, time_Now.
  unfold bind at 1.
  destruct (os_Chtimes orig_file_path (now w2) (hdr_ModTime hdr) w2)
    as [[[]| | |] w3] eqn:Hch; try discriminate.
  intros [= <- <-].
  repeat split; eauto.
  intros p Hp.
  rewrite (os_Chtimes_frame _ _ _ _ _ _ p Hch Hreg2 Hp), (Hframe2 p Hp).
  subst w1. cbn [fs set_fs]. apply lookup_insert_ne. congruence.
Qed.

(** C9, as the code has it.  A successful [DecryptFile] leaves the
    artifact in place, unchanged.  It is the function [DecryptDirFiles]
    hands to the walk that removes it: called on the artifact, it runs
    [DecryptFile], then [os.Remove], and the artifact is gone. *)
Theorem DecryptFile_keeps_artifact (path : pathname) (key : bytes) (w : world)
    orig w1 :
  DecryptFile L path key w = (Returns orig, w1) ->
  (exists n, fs w !! path = Some n /\ fs w1 !! path = Some n)
  /\ (forall info err, fi_IsDir info = false ->
      exists w2, DecryptDirFiles_fn L key path (Some info) err w = (Returns tt, w2)
                 /\ fs w2 !! path = None).
Proof.
  intros Hrun.
  destruct (DecryptFile_Returns path key w orig w1 Hrun)
    as (Hname & (q & n & Hfollow & Hmode) & Hfree & Hframe).
  destruct (follow_exists _ _ _ _ _ Hfollow) as ([n0 Hn0] & _ & _).
  assert (Hne : path <> orig) by congruence.
  assert (Hkept : fs w1 !! path = Some n0) by (rewrite (Hframe _ Hne); exact Hn0).
  split; [eauto|].
  intros info err Hdir.
  unfold DecryptDirFiles_fn. rewrite Hdir, Hname. cbn [negb].
  unfold bind at 1. rewrite Hrun.
  unfold bind at 1, os_Remove. rewrite Hkept.
  destruct n0 as [perm t content|perm t|target|kind perm].
  - eexists. split; [reflexivity|]. cbn [fs]. apply lookup_delete_eq.
  - exfalso. exact (follow_not_directory _ _ _ _ Hfollow Hmode perm t Hn0).
  - eexists. split; [reflexivity|]. cbn [fs set_fs]. apply lookup_delete_eq.
  - eexists. split; [reflexivity|]. cbn [fs set_fs]. apply lookup_delete_eq.
Qed.

(** C5, as the code has it.  On an artifact that authenticates and
    decrypts to an archive with no entry, [tr.Next()] returns a nil header
    and [io.EOF]; [DecryptFile] lets [io.EOF] pass and panics on
    [hdr.Name].  It restores no file, and it does not return. *)
Theorem DecryptFile_empty_archive (path : pathname) (key : bytes) (w : world)
    perm t data dec_data :
  sha256HexRegexp_MatchString (filepath_Base path) = true ->
  fs w !! path = Some (Regular perm t data) ->
  run_err (Decrypt L data (filepath_Base path) key) = None ->
  run_ret (Decrypt L data (filepath_Base path) key) = Some dec_data ->
  next_hdr (tar_read L dec_data) = None ->
  next_err (tar_read L dec_data) = Some io_EOF ->
  DecryptFile L path key w = (Panics nil_dereference, w).
Proof.
  intros Hname Hpath Herr Hret Hhdr Hnext.
  unfold DecryptFile. rewrite Hname. cbn [negb].
  unfold bind at 1. rewrite (os_Stat_regular w path _ _ _ Hpath).
  cbn [node_info node_Mode fi_Mode]. rewrite regular_mode_type. cbn [Z.eqb negb].
  unfold bind at 1. rewrite (ioutil_ReadFile_regular w path _ _ _ Hpath).
  unfold bind at 1, Decrypt_call. rewrite Herr, Hret.
  change (default [] (Some dec_data)) with dec_data.
  unfold ret at 1. unfold bind at 1.
  rewrite Hnext, Hhdr.
  rewrite bool_decide_eq_false_2 by (intros H; apply H; reflexivity).
  reflexivity.
Qed.

End DecryptFileFacts.

(** ** The walks *)

Lemma nonregular_mode_type (n : node) :
  (forall perm t content, n <> Regular perm t content) ->
  (Z.land (node_Mode n) os_ModeType =? 0)%Z = false.
Proof.
  intros Hn. apply Z.eqb_neq. intros Hmode.
  assert (Hbits : forall i, Z.testbit (Z.land (node_Mode n) os_ModeType) i = false)
    by (intros i; rewrite Hmode; apply Z.testbit_0_l).
  destruct n as [perm t content|perm t|target|kind perm]; cbn [node_Mode] in Hbits.
  - exact (Hn _ _ _ eq_refl).
  - specialize (Hbits 31%Z). rewrite Z.land_spec, Z.lor_spec in Hbits.
    change (Z.testbit os_ModeDir 31) with true in Hbits.
    change (Z.testbit os_ModeType 31) with true in Hbits. discriminate.
  - revert Hmode. vm_compute. discriminate.
  - destruct kind; cbn [special_Mode] in Hbits.
    + specialize (Hbits 25%Z). rewrite Z.land_spec, Z.lor_spec in Hbits.
      change (Z.testbit os_ModeNamedPipe 25) with true in Hbits.
      change (Z.testbit os_ModeType 25) with true in Hbits. discriminate.
    + specialize (Hbits 24%Z). rewrite Z.land_spec, Z.lor_spec in Hbits.
      change (Z.testbit os_ModeSocket 24) with true in Hbits.
      change (Z.testbit os_ModeType 24) with true in Hbits. discriminate.
    + specialize (Hbits 26%Z). rewrite Z.land_spec, Z.lor_spec in Hbits.
      change (Z.testbit os_ModeDevice 26) with true in Hbits.
      change (Z.testbit os_ModeType 26) with true in Hbits. discriminate.
    + specialize (Hbits 26%Z). rewrite Z.land_spec, !Z.lor_spec in Hbits.
      change (Z.testbit os_ModeDevice 26) with true in Hbits.
      change (Z.testbit os_ModeType 26) with true in Hbits. discriminate.
    + specialize (Hbits 19%Z). rewrite Z.land_spec, Z.lor_spec in Hbits.
      change (Z.testbit os_ModeIrregular 19) with true in Hbits.
      change (Z.testbit os_ModeType 19) with true in Hbits. discriminate.
Qed.

Lemma perm_not_dir (perm : Z) : Z.land (Z.land perm os_ModePerm) os_ModeDir = 0%Z.
Proof.
  rewrite <- Z.land_assoc. change (Z.land os_ModePerm os_ModeDir) with 0%Z.
  apply Z.land_0_r.
Qed.

Lemma directory_IsDir (name : string) (n : node) :
  fi_IsDir (node_info name n) = true <-> exists perm t, n = Directory perm t.
Proof.
  unfold fi_IsDir. cbn [node_info fi_Mode]. rewrite negb_true_iff, Z.eqb_neq.
  split.
  - intros Hbit. destruct n as [perm t content|perm t|target|kind perm]; [|eauto| |];
      exfalso; apply Hbit; cbn [node_Mode].
    + apply perm_not_dir.
    + vm_compute. reflexivity.
    + rewrite Z.land_lor_distr_l, perm_not_dir.
      destruct kind; vm_compute; reflexivity.
  - intros (perm & t & ->) Hmode. cbn [node_Mode] in Hmode.
    assert (Hbit : Z.testbit (Z.land (Z.lor os_ModeDir (Z.land perm os_ModePerm)) os_ModeDir) 31
                   = false) by (rewrite Hmode; apply Z.testbit_0_l).
    rewrite Z.land_spec, Z.lor_spec in Hbit.
    change (Z.testbit os_ModeDir 31) with true in Hbit. discriminate.
Qed.

Lemma readDirNames_pure (dir : pathname) (w : world) :
  exists r, attempt (readDirNames dir) w = (Returns r, w).
Proof.
  unfold attempt, readDirNames.
  destruct (fs w !! dir) as [[]|]; eexists; reflexivity.
Qed.

Lemma os_Lstat_pure (p : pathname) (w : world) :
  (exists n, fs w !! p = Some n
             /\ attempt (os_Lstat p) w = (Returns (Ok (node_info (filepath_Base p) n)), w))
  \/ (exists e, attempt (os_Lstat p) w = (Returns (Err e), w)).
Proof.
  unfold attempt, os_Lstat.
  destruct (fs w !! p) as [n|]; [left|right]; eexists; eauto.
Qed.

Section WalkFacts.

Variable P : pathname -> node -> Prop.
Variable fn : WalkFunc.
Hypothesis fn_ok : fn_keeps P fn.

Lemma keeps_bind {A B : Type} (c : M A) (k : A -> M B) (w : world) :
  keeps P c w ->
  (forall a w1, c w = (Returns a, w1) -> keeps P (k a) w1) ->
  keeps P (bind c k) w.
Proof.
  intros Hc Hk o w' Hrun q n Hq HP. unfold bind in Hrun.
  destruct (c w) as [[a|e|msg|] w1] eqn:Hcw;
    try (injection Hrun as <- <-; exact (Hc _ _ Hcw q n Hq HP)).
  apply (Hk a w1 eq_refl o w' Hrun q n); [|exact HP].
  exact (Hc _ _ Hcw q n Hq HP).
Qed.

Lemma keeps_ret {A : Type} (a : A) (w : world) : keeps P (ret a) w.
Proof. intros o w' [= <- <-] q n Hq _. exact Hq. Qed.

Lemma walk_keeps (fuel : nat) :
  forall p n w, fs w !! p = Some n ->
    keeps P (walk fuel fn p (node_info (filepath_Base p) n)) w.
Proof.
  destruct fn_ok as [Hnone Hsome].
  induction fuel as [|fuel IH]; intros p n w Hp; cbn [walk].
  { intros o w' [= <- <-] q m Hq _. exact Hq. }
  destruct (fi_IsDir (node_info (filepath_Base p) n)); cbn [negb].
  2:{ apply Hsome, Hp. }
  apply keeps_bind.
  { destruct (readDirNames_pure p w) as [r Hr].
    intros o w' Hrun q m Hq _. rewrite Hr in Hrun. injection Hrun as <- <-. exact Hq. }
  intros r w1 Hr.
  destruct (readDirNames_pure p w) as [r' Hr'].
  rewrite Hr' in Hr. injection Hr as <- <-.
  destruct r' as [names|e]; [|apply Hsome, Hp].
  apply keeps_bind; [apply Hsome, Hp|].
  intros [] w1 _. clear Hp Hr' w.
  revert w1. induction names as [|name names IHnames]; intros w.
  { apply keeps_ret. }
  apply keeps_bind.
  { intros o w' Hrun q m Hq _.
    destruct (os_Lstat_pure (p ++ [name]) w) as [(n' & _ & Hl)|(e & Hl)];
      rewrite Hl in Hrun; injection Hrun as <- <-; exact Hq. }
  intros r w1 Hr.
  destruct (os_Lstat_pure (p ++ [name]) w) as [(n' & Hn' & Hl)|(e & Hl)];
    rewrite Hl in Hr; injection Hr as <- <-.
  - apply keeps_bind; [apply IH, Hn'|]. intros [] w2 _. apply IHnames.
  - apply keeps_bind; [apply Hnone|]. intros [] w2 _. apply IHnames.
Qed.

Lemma filepath_Walk_keeps (root : pathname) (w : world) :
  keeps P (filepath_Walk root fn) w.
Proof.
  destruct fn_ok as [Hnone _].
  unfold filepath_Walk. intros o w' Hrun. revert o w' Hrun.
  change (keeps P (info <- attempt (os_Lstat root) ;;
                   match info with
                   | Err e => fn root None (Some e)
                   | Ok info => walk (2 + depth (fs w)) fn root info
                   end) w).
  apply keeps_bind.
  { intros o w' Hrun q m Hq _.
    destruct (os_Lstat_pure root w) as [(n' & _ & Hl)|(e & Hl)];
      rewrite Hl in Hrun; injection Hrun as <- <-; exact Hq. }
  intros r w1 Hr.
  destruct (os_Lstat_pure root w) as [(n' & Hn' & Hl)|(e & Hl)];
    rewrite Hl in Hr; injection Hr as <- <-.
  - apply walk_keeps, Hn'.
  - apply Hnone.
Qed.

End WalkFacts.

Lemma os_Remove_keeps (name : pathname) (w : world) o w' :
  os_Remove name w = (o, w') ->
  forall q n, fs w !! q = Some n -> q <> name -> fs w' !! q = Some n.
Proof.
  unfold os_Remove. intros Hrun q n Hq Hne.
  destruct (fs w !! name) as [[perm t content|perm t|target|kind perm]|];
    [| destruct (children (fs w) name) | | |];
    injection Hrun as <- <-; cbn [fs set_fs]; try exact Hq;
    rewrite lookup_delete_ne; auto.
Qed.

Lemma adds_files_extends (w w' : world) : adds_files w w' -> extends w w'.
Proof.
  intros Hadd q n Hq. destruct (Hadd q) as [Heq|[Hnone _]]; congruence.
Qed.

Lemma adds_files_no_new_dirs (w w' : world) : adds_files w w' -> no_new_dirs w w'.
Proof.
  intros Hadd q perm t Hq.
  destruct (Hadd q) as [Heq|(_ & perm' & t' & c & Hreg)]; congruence.
Qed.

Section WalkFunctions.

Variable L : GoLib.

Hypothesis hmac_size : forall key data, length (hmac_sha256 L key data) = 32.

(** [EncryptFile] on a regular file ends, and at most adds a file. *)
Lemma EncryptFile_adds_file (path : pathname) (key : bytes) (w : world)
    perm t data o w' :
  fs w !! path = Some (Regular perm t data) ->
  EncryptFile L path key w = (o, w') ->
  ran_out o = false /\ adds_files w w'.
Proof using hmac_size.
  intros Hpath Hrun.
  assert (Hsame : adds_files w w) by (intros q; left; reflexivity).
  rewrite (EncryptFile_regular_run L hmac_size path key w perm t data Hpath) in Hrun.
  cbv zeta in Hrun.
  destruct (tar_archive L _ data) as [buf|e];
    [|injection Hrun as <- <-; split; [reflexivity | exact Hsame]].
  destruct (Encrypt L buf key (rand_Reader w)) as [[[E sig]|e] rnd'];
    [|injection Hrun as <- <-; split; [reflexivity | exact Hsame]].
  destruct (os_OpenFile _ excl_create 256 _) as [[f| | |] w2] eqn:Hopen;
    apply os_OpenFile_excl in Hopen; try contradiction.
  - destruct Hopen as (-> & Hfree & ->). cbn [fs] in Hfree.
    assert (Hadd : forall E' rnd0 free,
      adds_files w {| fs := <[filepath_Dir path ++ [sig] := Regular 256 (now w) E']> (fs w);
                      rand_Reader := rnd0; free_space := free; now := now w |}).
    { intros E' rnd0 free q. cbn [fs].
      destruct (decide (q = filepath_Dir path ++ [sig])) as [->|Hne].
      - right. rewrite lookup_insert_eq. eauto.
      - left. apply lookup_insert_ne. congruence. }
    destruct (_ <? _)%nat in Hrun; injection Hrun as <- <-;
      (split; [reflexivity | apply Hadd]).
  - destruct Hopen as [-> _]. injection Hrun as <- <-.
    split; [reflexivity | exact Hsame].
Qed.

Lemma EncryptFile_extends (path : pathname) (key : bytes) (w : world)
    perm t data o w' :
  fs w !! path = Some (Regular perm t data) ->
  EncryptFile L path key w = (o, w') ->
  extends w w'.
Proof using hmac_size.
  intros Hpath Hrun.
  apply adds_files_extends, (EncryptFile_adds_file _ _ _ _ _ _ _ _ Hpath Hrun).
Qed.

Lemma EncryptDirFiles_fn_keeps (key : bytes) :
  fn_keeps nonregular (EncryptDirFiles_fn L key).
Proof using hmac_size.
  split.
  - intros p err w o w' [= <- <-] q n Hq _. exact Hq.
  - intros p n err w Hp o w' Hrun q m Hq Hm.
    unfold EncryptDirFiles_fn in Hrun. cbn [node_info fi_Mode] in Hrun.
    destruct n as [perm t data|perm t|target|kind perm];
      try (rewrite nonregular_mode_type in Hrun by (intros ? ? ?; discriminate);
           injection Hrun as <- <-; exact Hq).
    cbn [node_Mode] in Hrun. rewrite regular_mode_type in Hrun.
    cbn [Z.eqb negb] in Hrun. unfold bind at 1 in Hrun.
    destruct (EncryptFile L p key w) as [[new| | |] w1] eqn:Henc;
      pose proof (EncryptFile_extends p key w _ _ _ _ _ Hp Henc) as Hext;
      try (injection Hrun as <- <-; apply Hext, Hq).
    unfold bind at 1 in Hrun.
    destruct (os_Remove p w1) as [[[]| | |] w2] eqn:Hrm;
      injection Hrun as <- <-;
      apply (os_Remove_keeps _ _ _ _ Hrm); try (apply Hext, Hq);
      intros ->; rewrite Hp in Hq; injection Hq as <-; eapply Hm; reflexivity.
Qed.

End WalkFunctions.

Section DecryptWalk.

Variable L : GoLib.

(** [DecryptFile] creates its file exclusively: whatever the outcome, it
    ends, and at most adds that file. *)
Lemma DecryptFile_adds_file (path : pathname) (key : bytes) (w : world) o w' :
  DecryptFile L path key w = (o, w') ->
  ran_out o = false /\ adds_files w w'.
Proof.
  assert (Hsame : adds_files w w) by (intros q; left; reflexivity).
  assert (Hexit : forall (o0 : outcome pathname) w0,
            ran_out o0 = false -> adds_files w w0 ->
            (o0, w0) = (o, w') -> ran_out o = false /\ adds_files w w').
  { intros o0 w0 Ho Hw [= <- <-]. split; assumption. }
  unfold DecryptFile.
  destruct (sha256HexRegexp_MatchString (filepath_Base path)); cbn [negb];
    [|apply Hexit; [reflexivity | exact Hsame]].
  unfold bind at 1, os_Stat.
  destruct (follow maxSymlinks (fs w) path) as [[q0 n0]|e] eqn:Hfollow;
    [|apply Hexit; [reflexivity | exact Hsame]].
  cbn [node_info fi_Mode].
  destruct (Z.land (node_Mode n0) os_ModeType =? 0)%Z; cbn [negb];
    [|apply Hexit; [reflexivity | exact Hsame]].
  unfold bind at 1, ioutil_ReadFile. rewrite Hfollow.
  destruct n0 as [perm t content| | |];
    try (apply Hexit; [reflexivity | exact Hsame]).
  unfold bind at 1, Decrypt_call.
  destruct (run_err (Decrypt L content (filepath_Base path) key));
    [apply Hexit; [reflexivity | exact Hsame]|].
  cbn [ret]. set (dec_data := default [] _).
  unfold bind at 1.
  destruct (match next_err (tar_read L dec_data) with
            | Some err => if bool_decide (err <> io_EOF) then fail err else ret tt
            | None => ret tt
            end w) as [o0 w0] eqn:Hnext.
  assert (w0 = w /\ ran_out o0 = false) as [-> Ho0].
  { destruct (next_err (tar_read L dec_data)) as [err|];
      [destruct (bool_decide (err <> io_EOF))|];
      unfold fail, ret in Hnext; injection Hnext as <- <-; split; reflexivity. }
  destruct o0 as [[]| | |]; try discriminate;
    try (apply Hexit; [reflexivity | exact Hsame]).
  destruct (next_hdr (tar_read L dec_data)) as [hdr|];
    [|apply Hexit; [reflexivity | exact Hsame]].
  fold excl_create. unfold bind at 1.
  destruct (os_OpenFile _ excl_create _ w) as [[f| | |] w1] eqn:Hopen;
    apply os_OpenFile_excl in Hopen; try contradiction.
  2:{ destruct Hopen as [-> _]. apply Hexit; [reflexivity | exact Hsame]. }
  destruct Hopen as (-> & Hfree & ->).
  set (orig_file_path := filepath_Join (filepath_Dir path) (hdr_Name hdr)) in *.
  set (w1 := set_fs _ w).
  (* from here on the new file is the only difference *)
  assert (Hadd : forall w0,
            (exists perm t c, fs w0 !! orig_file_path = Some (Regular perm t c)) ->
            (forall q, q <> orig_file_path -> fs w0 !! q = fs w !! q) ->
            adds_files w w0).
  { intros w0 Hreg Hframe q.
    destruct (decide (q = orig_file_path)) as [->|Hne]; [right|left]; auto. }
  assert (Hreg1 : exists perm t c, fs w1 !! orig_file_path = Some (Regular perm t c)).
  { subst w1. cbn [fs set_fs]. rewrite lookup_insert_eq. eauto. }
  assert (Hframe1 : forall q, q <> orig_file_path -> fs w1 !! q = fs w !! q).
  { intros q Hq. subst w1. cbn [fs set_fs]. apply lookup_insert_ne. congruence. }
  unfold bind at 1, io_Copy, bind at 1.
  destruct (file_Write orig_file_path (entry_body (tar_read L dec_data)) w1)
    as [o2 w2] eqn:Hwrite.
  pose proof (file_Write_regular _ _ _ _ _ Hwrite Hreg1) as Hreg2.
  assert (Hframe2 : forall q, q <> orig_file_path -> fs w2 !! q = fs w !! q).
  { intros q Hq. rewrite (file_Write_frame _ _ _ _ _ q Hwrite Hq). auto. }
  assert (Ho2 : exists r, o2 = Returns r).
  { destruct Hreg1 as (perm1 & t1 & c1 & Hreg1).
    unfold file_Write in Hwrite. rewrite Hreg1 in Hwrite.
    injection Hwrite as <- _. eauto. }
  destruct Ho2 as [[n werr] ->].
  destruct werr as [e|]; cbn [ret].
  { unfold bind, file_Close, ret, fail. apply Hexit; [reflexivity | auto]. }
  destruct (entry_err (tar_read L dec_data)) as [e|].
  { unfold bind, file_Close, ret, fail. apply Hexit; [reflexivity | auto]. }
  destruct (Z.of_nat n =? hdr_Size hdr)%Z; cbn [negb].
  2:{ unfold bind, file_Close, ret, fail. apply Hexit; [reflexivity | auto]. }
  unfold bind at 1, file_Close, ret. unfold bind at 1, time_Now.
  unfold bind at 1.
  destruct (os_Chtimes orig_file_path (now w2) (hdr_ModTime hdr) w2)
    as [o3 w3] eqn:Hch.
  assert (Hframe3 : forall q, q <> orig_file_path -> fs w3 !! q = fs w !! q).
  { intros q Hq. rewrite (os_Chtimes_frame _ _ _ _ _ _ q Hch Hreg2 Hq). auto. }
  assert (Hreg3 : (exists perm t c, fs w3 !! orig_file_path = Some (Regular perm t c))
                  /\ o3 = Returns tt).
  { destruct Hreg2 as (perm2 & t2 & c2 & Hreg2).
    unfold os_Chtimes in Hch. rewrite (follow_regular _ _ _ _ _ Hreg2) in Hch.
    injection Hch as <- <-. cbn [fs set_fs]. rewrite lookup_insert_eq. eauto. }
  destruct Hreg3 as [Hreg3 ->].
  apply Hexit; [reflexivity | auto].
Qed.

Lemma DecryptFile_extends (path : pathname) (key : bytes) (w : world) o w' :
  DecryptFile L path key w = (o, w') -> extends w w'.
Proof.
  intros Hrun. apply adds_files_extends, (DecryptFile_adds_file _ _ _ _ _ Hrun).
Qed.

Lemma DecryptDirFiles_fn_keeps (key : bytes) :
  fn_keeps not_an_artifact (DecryptDirFiles_fn L key).
Proof.
  split.
  - intros p err w o w' [= <- <-] q n Hq _. exact Hq.
  - intros p n err w Hp o w' Hrun q m Hq Hm.
    unfold DecryptDirFiles_fn in Hrun.
    destruct (fi_IsDir (node_info (filepath_Base p) n)) eqn:Hdir;
      [injection Hrun as <- <-; exact Hq|].
    destruct (sha256HexRegexp_MatchString (filepath_Base p)) eqn:Hname;
      cbn [negb] in Hrun; [|injection Hrun as <- <-; exact Hq].
    unfold bind at 1 in Hrun.
    destruct (DecryptFile L p key w) as [[orig| | |] w1] eqn:Hdec;
      pose proof (DecryptFile_extends p key w _ _ Hdec) as Hext;
      try (injection Hrun as <- <-; apply Hext, Hq).
    unfold bind at 1 in Hrun.
    destruct (os_Remove p w1) as [[[]| | |] w2] eqn:Hrm;
      injection Hrun as <- <-;
      apply (os_Remove_keeps _ _ _ _ Hrm); try (apply Hext, Hq);
      intros ->; rewrite Hp in Hq; injection Hq as <-;
      (destruct Hm as [Hd|Hm]; [|congruence]);
      apply (directory_IsDir (filepath_Base p)) in Hd; congruence.
Qed.

End DecryptWalk.

Section Untouched.

Variable L : GoLib.

Hypothesis hmac_size : forall key data, length (hmac_sha256 L key data) = 32.

(** X1.  Whatever [EncryptDirFiles] returns, and wherever it stops, every
    entry that is not a regular file (directory, symbolic link, named
    pipe, socket, device) is still there, unchanged. *)
Theorem EncryptDirFiles_keeps_nonregular (dir : pathname) (key : bytes)
    (w : world) o w' :
  EncryptDirFiles L dir key w = (o, w') ->
  forall q n,
    fs w !! q = Some n ->
    (forall perm t content, n <> Regular perm t content) ->
    fs w' !! q = Some n.
Proof using hmac_size.
  intros Hrun q n Hq Hn.
  exact (filepath_Walk_keeps nonregular _ (EncryptDirFiles_fn_keeps L hmac_size key)
           dir w o w' Hrun q n Hq Hn).
Qed.

(** X2.  Whatever [DecryptDirFiles] returns, and wherever it stops, every
    directory and every entry whose base name is not 64 lowercase hex
    characters is still there, unchanged. *)
Theorem DecryptDirFiles_keeps_other_files (dir : pathname) (key : bytes)
    (w : world) o w' :
  DecryptDirFiles L dir key w = (o, w') ->
  forall q n,
    fs w !! q = Some n ->
    (exists perm t, n = Directory perm t)
    \/ sha256HexRegexp_MatchString (filepath_Base q) = false ->
    fs w' !! q = Some n.
Proof.
  intros Hrun q n Hq Hn.
  exact (filepath_Walk_keeps not_an_artifact _ (DecryptDirFiles_fn_keeps L key)
           dir w o w' Hrun q n Hq Hn).
Qed.

(** X3.  An artifact stored under a name that is a well-formed signature
    but not the HMAC of its contents is rejected: [DecryptFile] fails with
    the signature-mismatch error and the file system is as it was. *)
Theorem DecryptFile_rejects_renamed (path : pathname) (key : bytes) (w : world)
    perm t data sig_mac :
  sha256HexRegexp_MatchString (filepath_Base path) = true ->
  fs w !! path = Some (Regular perm t data) ->
  16 <= length data ->
  hex_DecodeString (filepath_Base path) = (sig_mac, None) ->
  hmac_sha256 L key data <> sig_mac ->
  DecryptFile L path key w = (Fails ErrSignatureMismatch, w).
Proof.
  intros Hname Hpath Hlen Hsig Hmac.
  unfold DecryptFile. rewrite Hname. cbn [negb].
  unfold bind at 1. rewrite (os_Stat_regular w path _ _ _ Hpath).
  cbn [node_info node_Mode fi_Mode]. rewrite regular_mode_type. cbn [Z.eqb negb].
  unfold bind at 1. rewrite (ioutil_ReadFile_regular w path _ _ _ Hpath).
  unfold bind at 1, Decrypt_call.
  rewrite (Decrypt_rejects L data _ key sig_mac Hlen Hsig Hmac).
  reflexivity.
Qed.

End Untouched.

(** ** A file through [EncryptFile], [os.Remove] and [DecryptFile] *)

Lemma os_OpenFile_excl_parent (name : pathname) (perm : Z) (w : world) f w' :
  os_OpenFile name excl_create perm w = (Returns f, w') ->
  exists dperm dt, fs w !! filepath_Dir name = Some (Directory dperm dt).
Proof.
  unfold os_OpenFile.
  change (has_flag excl_create os_O_CREATE && has_flag excl_create os_O_EXCL) with true.
  cbn [negb].
  destruct (fs w !! name); [discriminate|].
  destruct name as [|c name']; [discriminate|].
  destruct (fs w !! filepath_Dir (c :: name')) as [[]|]; try discriminate.
  eauto.
Qed.


Lemma filepath_Dir_app (dir : pathname) (name : string) :
  filepath_Dir (dir ++ [name]) = dir.
Proof. unfold filepath_Dir. apply removelast_last. Qed.

Lemma filepath_Base_app (dir : pathname) (name : string) :
  filepath_Base (dir ++ [name]) = name.
Proof. unfold filepath_Base. rewrite last_snoc. reflexivity. Qed.


Section FileRoundTrip.

Variable L : GoLib.

Hypothesis hmac_size : forall key data, length (hmac_sha256 L key data) = 32.

Hypothesis gzip_roundtrip : forall level data,
  gzip_decompress L (gzip_compress L level data) = gzip_read data None.


End FileRoundTrip.

(** ** The walks end within their fuel *)

Lemma depth_bound (m : gmap pathname node) (q : pathname) (n : node) :
  m !! q = Some n -> length q <= depth m.
Proof.
  intros Hq. apply elem_of_map_to_list in Hq. unfold depth.
  induction (map_to_list m) as [|e l IH]; [inversion Hq|].
  cbn [map foldr]. apply elem_of_cons in Hq as [<-|Hq].
  - cbn [fst]. lia.
  - specialize (IH Hq). lia.
Qed.

Lemma no_new_dirs_refl (w : world) : no_new_dirs w w.
Proof. intros q perm t Hq. exact Hq. Qed.

Lemma no_new_dirs_trans (w1 w2 w3 : world) :
  no_new_dirs w1 w2 -> no_new_dirs w2 w3 -> no_new_dirs w1 w3.
Proof. intros H12 H23 q perm t Hq. apply H12, H23, Hq. Qed.

Lemma shallow_no_new_dirs (fuel : nat) (p : pathname) (w w' : world) :
  shallow fuel p w -> no_new_dirs w w' -> shallow fuel p w'.
Proof. intros Hs Hn q perm t Hq. exact (Hs q perm t (Hn q perm t Hq)). Qed.

Lemma total_bind {A B : Type} (c : M A) (k : A -> M B) (w : world) :
  total c w ->
  (forall a w1, c w = (Returns a, w1) -> total (k a) w1) ->
  total (bind c k) w.
Proof.
  intros Hc Hk o w' Hrun. unfold bind in Hrun.
  destruct (c w) as [[a|e|msg|] w1] eqn:Hcw;
    try (injection Hrun as <- <-; exact (Hc _ _ Hcw)).
  destruct (Hc _ _ Hcw) as [_ H1].
  destruct (Hk a w1 eq_refl o w' Hrun) as [Ho H2].
  split; [exact Ho | exact (no_new_dirs_trans _ _ _ H1 H2)].
Qed.

Lemma total_ret {A : Type} (a : A) (w : world) : total (ret a) w.
Proof. intros o w' [= <- <-]. split; [reflexivity | apply no_new_dirs_refl]. Qed.

Lemma total_pure {A : Type} (c : M A) (w : world) (a : A) :
  c w = (Returns a, w) -> total c w.
Proof.
  intros Hc o w' Hrun. rewrite Hc in Hrun. injection Hrun as <- <-.
  split; [reflexivity | apply no_new_dirs_refl].
Qed.

Section WalkTermination.

Variable fn : WalkFunc.
Hypothesis fn_ok : fn_total fn.

Lemma walk_total (fuel : nat) :
  forall p n w,
    1 <= fuel -> fs w !! p = Some n -> shallow fuel p w ->
    total (walk fuel fn p (node_info (filepath_Base p) n)) w.
Proof.
  destruct fn_ok as [Hnone Hsome].
  induction fuel as [|fuel IH]; intros p n w Hfuel Hp Hshallow; [lia|].
  cbn [walk].
  destruct (fi_IsDir (node_info (filepath_Base p) n)) eqn:Hdir; cbn [negb].
  2:{ apply Hsome, Hp. }
  apply directory_IsDir in Hdir as (perm & t & ->).
  assert (Hfuel' : 1 <= fuel) by (specialize (Hshallow p perm t Hp); lia).
  destruct (readDirNames_pure p w) as [r Hr].
  apply total_bind; [exact (total_pure _ _ _ Hr)|].
  intros r' w1 Hr'. rewrite Hr in Hr'. injection Hr' as <- <-.
  destruct r as [names|e]; [|apply Hsome, Hp].
  apply total_bind; [apply Hsome, Hp|].
  intros [] w1 Hfn.
  assert (Hshallow1 : shallow (S fuel) p w1).
  { eapply shallow_no_new_dirs; [exact Hshallow|]. eapply Hsome; eauto. }
  clear Hp Hr Hfn Hshallow w.
  revert w1 Hshallow1. induction names as [|name names IHnames]; intros w Hshallow.
  { apply total_ret. }
  pose proof (fun w1 (Hn : no_new_dirs w w1) =>
                IHnames w1 (shallow_no_new_dirs _ _ _ _ Hshallow Hn)) as Hnext.
  destruct (os_Lstat_pure (p ++ [name]) w) as [(n' & Hn' & Hl)|(e & Hl)];
    (apply total_bind; [exact (total_pure _ _ _ Hl)|]);
    intros r' w1 Hr'; rewrite Hl in Hr'; injection Hr' as <- <-.
  - assert (Hchild : total (walk fuel fn (p ++ [name])
                              (node_info (filepath_Base (p ++ [name])) n')) w).
    { apply IH; [exact Hfuel' | exact Hn' |].
      intros q qperm qt Hq. specialize (Hshallow q qperm qt Hq).
      rewrite length_app. cbn [length]. lia. }
    apply total_bind; [exact Hchild|].
    intros [] w2 Hw2. apply Hnext. eapply Hchild; eauto.
  - apply total_bind; [apply Hnone|].
    intros [] w2 Hw2. apply Hnext. eapply Hnone; eauto.
Qed.

Lemma filepath_Walk_total (root : pathname) (w : world) :
  total (filepath_Walk root fn) w.
Proof.
  destruct fn_ok as [Hnone _].
  unfold filepath_Walk. intros o w' Hrun. revert o w' Hrun.
  change (total (info <- attempt (os_Lstat root) ;;
                 match info with
                 | Err e => fn root None (Some e)
                 | Ok info => walk (2 + depth (fs w)) fn root info
                 end) w).
  destruct (os_Lstat_pure root w) as [(n' & Hn' & Hl)|(e & Hl)];
    (apply total_bind; [exact (total_pure _ _ _ Hl)|]);
    intros r' w1 Hr'; rewrite Hl in Hr'; injection Hr' as <- <-.
  - apply walk_total; [lia | exact Hn' |].
    intros q perm t Hq. pose proof (depth_bound _ _ _ Hq). lia.
  - apply Hnone.
Qed.

End WalkTermination.

Lemma os_Remove_total (name : pathname) (w : world) : total (os_Remove name) w.
Proof.
  intros o w' Hrun. unfold os_Remove in Hrun.
  assert (Hdel : forall w0, fs w0 = delete name (fs w) -> no_new_dirs w w0).
  { intros w0 Hw0 q perm t Hq. rewrite Hw0 in Hq.
    apply lookup_delete_Some in Hq as [_ Hq]. exact Hq. }
  destruct (fs w !! name) as [[perm t content|perm t|target|kind perm]|];
    [| destruct (children (fs w) name) | | |];
    injection Hrun as <- <-;
    (split; [reflexivity|]); try apply no_new_dirs_refl; apply Hdel; reflexivity.
Qed.

Section WalkFunctionsTerminate.

Variable L : GoLib.

Hypothesis hmac_size : forall key data, length (hmac_sha256 L key data) = 32.

Lemma EncryptDirFiles_fn_total (key : bytes) : fn_total (EncryptDirFiles_fn L key).
Proof using hmac_size.
  split.
  - intros p err w o w' [= <- <-]. split; [reflexivity | apply no_new_dirs_refl].
  - intros p n err w Hp. unfold EncryptDirFiles_fn. cbn [node_info fi_Mode].
    destruct n as [perm t data|perm t|target|kind perm];
      try (rewrite nonregular_mode_type by (intros ? ? ?; discriminate);
           apply total_ret).
    cbn [node_Mode]. rewrite regular_mode_type. cbn [Z.eqb negb].
    apply total_bind.
    + intros o w' Hrun.
      destruct (EncryptFile_adds_file L hmac_size _ _ _ _ _ _ _ _ Hp Hrun) as [Ho Hadd].
      split; [exact Ho | apply adds_files_no_new_dirs, Hadd].
    + intros new w1 _. apply total_bind; [apply os_Remove_total|].
      intros [] w2 _. apply total_ret.
Qed.

Lemma DecryptDirFiles_fn_total (key : bytes) : fn_total (DecryptDirFiles_fn L key).
Proof.
  split.
  - intros p err w o w' [= <- <-]. split; [reflexivity | apply no_new_dirs_refl].
  - intros p n err w Hp. unfold DecryptDirFiles_fn.
    destruct (fi_IsDir (node_info (filepath_Base p) n)); [apply total_ret|].
    destruct (sha256HexRegexp_MatchString (filepath_Base p)); cbn [negb];
      [|apply total_ret].
    apply total_bind.
    + intros o w' Hrun.
      destruct (DecryptFile_adds_file L _ _ _ _ _ Hrun) as [Ho Hadd].
      split; [exact Ho | apply adds_files_no_new_dirs, Hadd].
    + intros orig w1 _. apply total_bind; [apply os_Remove_total|].
      intros [] w2 _. apply total_ret.
Qed.

(** X5.  [EncryptDirFiles] and [DecryptDirFiles] end: on every tree the
    walk returns, returns an error or panics, and never needs more fuel
    than [filepath_Walk] starts it with. *)
Theorem walks_end (dir : pathname) (key : bytes) (w : world) :
  ran_out (fst (EncryptDirFiles L dir key w)) = false
  /\ ran_out (fst (DecryptDirFiles L dir key w)) = false.
Proof using hmac_size.
  split.
  - exact (proj1 (filepath_Walk_total _ (EncryptDirFiles_fn_total key) dir w
                    _ _ (surjective_pairing _))).
  - exact (proj1 (filepath_Walk_total _ (DecryptDirFiles_fn_total key) dir w
                    _ _ (surjective_pairing _))).
Qed.

End WalkFunctionsTerminate.
(** ** What the codec refuses *)





Section Refusals.

Variable L : GoLib.

(** The run of [Decrypt] that returned bytes. *)
Lemma Decrypt_Some (data : bytes) (sig : string) (key out : bytes) :
  run_ret (Decrypt L data sig key) = Some out ->
  16 <= length data
  /\ hex_DecodeString sig = (hmac_sha256 L key data, None)
  /\ gzip_decompress L
       (XORKeyStream
          (NewCFBDecrypter (aes_encrypt_block L (generate32ByteKey L key)) (take 16 data))
          (drop 16 data))
     = gzip_read out (run_err (Decrypt L data sig key)).
Proof.
  unfold Decrypt.
  destruct (length data <? aes_BlockSize)%nat eqn:Hlt; [discriminate|].
  apply Nat.ltb_ge in Hlt. unfold aes_BlockSize in Hlt.
  destruct (hex_DecodeString sig) as [sig_mac [e|]] eqn:Hsig; [discriminate|].
  unfold hmac_Equal.
  destruct (bool_decide (sig_mac = hmac_sha256 L key data)) eqn:Hmac;
    cbn [negb]; [|discriminate].
  apply bool_decide_eq_true_1 in Hmac. subst sig_mac.
  destruct (aes_NewCipher L (generate32ByteKey L key)) as [block|e] eqn:Haes;
    [|discriminate].
  apply aes_NewCipher_Ok in Haes as ->.
  change aes_BlockSize with 16.
  destruct (gzip_decompress L _) as [e|out' e] eqn:Hgz; [discriminate|].
  cbn. intros [= ->]. auto.
Qed.

(** X6.  [Decrypt] returns bytes only for data it has authenticated: when
    it returns any (with or without an error beside them), the data has at
    least 16 bytes, the signature is a hex spelling of the HMAC of the
    whole data under the raw secret, and the bytes are what the gzip reader
    yields from the CFB decryption of the data after its 16-byte IV, the
    error being the one that ended the read. *)
Theorem Decrypt_authenticates (data : bytes) (sig : string) (key out : bytes) :
  run_ret (Decrypt L data sig key) = Some out ->
  16 <= length data
  /\ hex_DecodeString sig = (hmac_sha256 L key data, None)
  /\ gzip_decompress L
       (XORKeyStream
          (NewCFBDecrypter (aes_encrypt_block L (generate32ByteKey L key)) (take 16 data))
          (drop 16 data))
     = gzip_read out (run_err (Decrypt L data sig key)).
Proof. apply Decrypt_Some. Qed.

Lemma Decrypt_no_error (data : bytes) (sig : string) (key : bytes) :
  run_err (Decrypt L data sig key) = None ->
  exists out, run_ret (Decrypt L data sig key) = Some out.
Proof.
  unfold Decrypt.
  destruct (length data <? aes_BlockSize)%nat; [discriminate|].
  destruct (hex_DecodeString sig) as [sig_mac [e|]]; [discriminate|].
  destruct (negb _); [discriminate|].
  destruct (aes_NewCipher L _); [|discriminate].
  destruct (gzip_decompress L _); [discriminate|].
  cbn. eauto.
Qed.


End Refusals.
(** ** Entropy, file types and a missing root *)

Section Edges.

Variable L : GoLib.

Hypothesis scrypt_contract : forall password salt N r p keyLen,
  (1 < N)%Z -> Z.land N (N - 1) = 0%Z -> (0 < r)%Z -> (0 < p)%Z ->
  (r * p < 2 ^ 30)%Z -> (0 <= keyLen)%Z ->
  exists key, scrypt_Key L password salt N r p keyLen = (key, None)
              /\ length key = Z.to_nat keyLen.

(** X8.  [Encrypt] and the random source.  With a working [scrypt],
    [Encrypt] succeeds exactly when [rand.Reader] yields 16 bytes, which
    become the IV at the head of the envelope, and it draws no more than
    those.  On a reader that is at its end it fails with [io.EOF], on one
    that yields fewer than 16 bytes with [io.ErrUnexpectedEOF]; in both
    cases it returns no envelope. *)
Theorem Encrypt_entropy (data key rnd : bytes) :
  (length rnd = 0 -> Encrypt L data key rnd = (Err io_EOF, []))
  /\ (0 < length rnd < 16 -> Encrypt L data key rnd = (Err io_ErrUnexpectedEOF, []))
  /\ (16 <= length rnd ->
      exists E sig, Encrypt L data key rnd = (Ok (E, sig), drop 16 rnd)
                    /\ take 16 E = take 16 rnd).
Proof using scrypt_contract.
  unfold Encrypt. rewrite (aes_NewCipher_generate32ByteKey L scrypt_contract).
  change (gzip_NewWriterLevel gzip_BestCompression) with (@None error). cbn iota.
  unfold io_ReadFull. change (aes_BlockSize =? 0)%nat with false. cbn iota.
  change aes_BlockSize with 16.
  split; [|split]; intros Hlen.
  - rewrite Hlen. reflexivity.
  - destruct (length rnd =? 0)%nat eqn:H0; [apply Nat.eqb_eq in H0; lia|].
    destruct (length rnd <? 16)%nat eqn:Hlt; [reflexivity|].
    apply Nat.ltb_ge in Hlt. lia.
  - destruct (length rnd =? 0)%nat eqn:H0; [apply Nat.eqb_eq in H0; lia|].
    destruct (length rnd <? 16)%nat eqn:Hlt; [apply Nat.ltb_lt in Hlt; lia|].
    eexists _, _. split; [reflexivity|].
    apply take_app_length'. rewrite length_take. lia.
Qed.

End Edges.

Section FileTypes.

Variable L : GoLib.

(** X9.  Neither codec touches what is not a regular file.  When the
    path leads (through symbolic links, if any) to a directory, a named
    pipe, a socket or a device, [EncryptFile] fails with the
    invalid-file-type error, and so does [DecryptFile] when the base name
    has the shape of a signature; nothing is read, created or changed. *)
Theorem codecs_refuse_nonregular (path : pathname) (key : bytes) (w : world)
    (q : pathname) (n : node) :
  follow maxSymlinks (fs w) path = inl (q, n) ->
  (forall perm t content, n <> Regular perm t content) ->
  EncryptFile L path key w = (Fails ErrInvalidFileType, w)
  /\ (sha256HexRegexp_MatchString (filepath_Base path) = true ->
      DecryptFile L path key w = (Fails ErrInvalidFileType, w)).
Proof.
  intros Hfollow Hn. pose proof (nonregular_mode_type n Hn) as Hmode. split.
  - unfold EncryptFile, bind at 1, os_Stat. rewrite Hfollow.
    cbn [node_info fi_Mode]. rewrite Hmode. reflexivity.
  - intros Hname. unfold DecryptFile. rewrite Hname. cbn [negb].
    unfold bind at 1, os_Stat. rewrite Hfollow.
    cbn [node_info fi_Mode]. rewrite Hmode. reflexivity.
Qed.

(** X10.  A root that does not exist.  [filepath.Walk] hands the error of
    [os.Lstat] to the walk function together with a nil [FileInfo]; both
    walk functions call a method on it before looking at the error, so
    [EncryptDirFiles] and [DecryptDirFiles] panic with a nil dereference
    instead of returning the error.  Nothing has changed by then. *)
Theorem walks_panic_on_missing_root (dir : pathname) (key : bytes) (w : world) :
  fs w !! dir = None ->
  EncryptDirFiles L dir key w = (Panics nil_dereference, w)
  /\ DecryptDirFiles L dir key w = (Panics nil_dereference, w).
Proof.
  intros Hdir.
  unfold EncryptDirFiles, DecryptDirFiles, filepath_Walk, bind, attempt, os_Lstat.
  rewrite Hdir. split; reflexivity.
Qed.

End FileTypes.
(** ** [EncryptFile] on any path *)

Section EncryptFileAnyPath.

Variable L : GoLib.

Hypothesis hmac_size : forall key data, length (hmac_sha256 L key data) = 32.

(** [EncryptFile] on a path that leads to a regular file, call by call. *)
Lemma EncryptFile_follow_run (path : pathname) (key : bytes) (w : world)
    q perm t data :
  follow maxSymlinks (fs w) path = inl (q, Regular perm t data) ->
  let hdr := {| hdr_Name := filepath_Base path;
                hdr_Mode := Z.land perm os_ModePerm;
                hdr_Size := Z.of_nat (length data);
                hdr_ModTime := t |} in
  EncryptFile L path key w
  = match tar_archive L hdr data with
    | Err e => (Fails e, w)
    | Ok buf =>
        match Encrypt L buf key (rand_Reader w) with
        | (Err e, rnd') =>
            (Fails e, {| fs := fs w; rand_Reader := rnd';
                         free_space := free_space w; now := now w |})
        | (Ok (E, sig), rnd') =>
            let w1 := {| fs := fs w; rand_Reader := rnd';
                         free_space := free_space w; now := now w |} in
            let new_file_path := filepath_Dir path ++ [sig] in
            match os_OpenFile new_file_path excl_create 256 w1 with
            | (Returns _, w2) =>
                let n := Nat.min (length E) (free_space w) in
                let w3 := {| fs := <[new_file_path := Regular 256 (now w) (take n E)]> (fs w);
                             rand_Reader := rnd';
                             free_space := free_space w - n;
                             now := now w |} in
                if (n <? length E)%nat
                then (Fails (os_PathError "write" new_file_path ENOSPC), w3)
                else (Returns new_file_path, w3)
            | (Fails e, w2) => (Fails e, w2)
            | (Panics msg, w2) => (Panics msg, w2)
            | (OutOfFuel, w2) => (OutOfFuel, w2)
            end
        end
    end.
Proof using hmac_size.
  intros Hpath hdr. unfold EncryptFile, bind at 1, os_Stat. rewrite Hpath.
  cbn [node_info node_Mode fi_Mode fi_Name fi_Size fi_ModTime].
  rewrite regular_mode_type. cbn [Z.eqb negb].
  unfold bind at 1, ioutil_ReadFile. rewrite Hpath.
  unfold bind at 1. fold hdr.
  destruct (tar_archive L hdr data) as [buf|e]; cbn [lift ret fail]; [|reflexivity].
  unfold bind at 1. unfold Encrypt_call.
  destruct (Encrypt L buf key (rand_Reader w)) as [[[E sig]|e] rnd'] eqn:Henc;
    [|reflexivity].
  rewrite (filepath_Join_signature _ sig
             (Encrypt_signature_matches L hmac_size _ _ _ _ _ _ Henc)).
  unfold bind at 1. fold excl_create.
  set (w1 := {| fs := fs w; rand_Reader := rnd' |}).
  set (new_file_path := filepath_Dir path ++ [sig]).
  destruct (os_OpenFile new_file_path excl_create 256 w1) as [[f| | |] w2] eqn:Hopen;
    try reflexivity.
  apply os_OpenFile_excl in Hopen as (-> & Hfree & ->).
  unfold bind at 1, file_Write.
  cbn [fs set_fs free_space now rand_Reader w1].
  rewrite lookup_insert_eq. rewrite insert_insert_eq.
  change (Z.land 256 os_ModePerm) with 256%Z. cbn [app].
  destruct (Nat.min (length E) (free_space w) <? length E)%nat eqn:Hshort.
  - reflexivity.
  - apply Nat.ltb_ge in Hshort.
    replace (Nat.min (length E) (free_space w) =? length E)%nat with true
      by (symmetry; apply Nat.eqb_eq; lia).
    reflexivity.
Qed.


(** X11.  [EncryptFile] follows symbolic links.  On a path that leads to
    a regular file it archives the target's bytes, permission bits and
    modification time under the base name of the path it was given, and
    puts the artifact in that path's directory: a new read-only file,
    named by the signature, holding the whole envelope.  No other entry
    changes; the link and its target stay. *)
Theorem EncryptFile_follows_links (path : pathname) (key : bytes) (w : world)
    q perm t data new_file_path w' :
  follow maxSymlinks (fs w) path = inl (q, Regular perm t data) ->
  EncryptFile L path key w = (Returns new_file_path, w') ->
  exists buf E sig,
    tar_archive L {| hdr_Name := filepath_Base path;
                     hdr_Mode := Z.land perm os_ModePerm;
                     hdr_Size := Z.of_nat (length data);
                     hdr_ModTime := t |} data = Ok buf
    /\ Encrypt L buf key (rand_Reader w) = (Ok (E, sig), rand_Reader w')
    /\ new_file_path = filepath_Dir path ++ [sig]
    /\ fs w !! new_file_path = None
    /\ fs w' !! new_file_path = Some (Regular 256 (now w) E)
    /\ (forall p, p <> new_file_path -> fs w' !! p = fs w !! p).
Proof using hmac_size.
  intros Hfollow Hrun.
  rewrite (EncryptFile_follow_run path key w q perm t data Hfollow) in Hrun.
  cbv zeta in Hrun.
  destruct (tar_archive L _ data) as [buf|e] eqn:Htar; [|discriminate].
  destruct (Encrypt L buf key (rand_Reader w)) as [[[E sig]|e] rnd'] eqn:HE;
    [|discriminate].
  destruct (os_OpenFile _ excl_create 256 _) as [[f| | |] w0] eqn:Hopen;
    try discriminate.
  apply os_OpenFile_excl in Hopen as (-> & Hfree & ->). cbn [fs] in Hfree.
  destruct (_ <? _)%nat eqn:Hshort in Hrun; [discriminate|].
  apply Nat.ltb_ge in Hshort. rewrite take_ge in Hrun by lia.
  injection Hrun as <- <-.
  exists buf, E, sig. cbn [fs rand_Reader].
  split; [reflexivity|]. split; [exact HE|]. split; [reflexivity|].
  split; [exact Hfree|]. split; [apply lookup_insert_eq|].
  intros p Hp. apply lookup_insert_ne. congruence.
Qed.

End EncryptFileAnyPath.
(** ** [DecryptFile] while the source is still there *)

Section NoOverwrite.

Variable L : GoLib.

Hypothesis hmac_size : forall key data, length (hmac_sha256 L key data) = 32.

Hypothesis gzip_roundtrip : forall level data,
  gzip_decompress L (gzip_compress L level data) = gzip_read data None.

(** X12.  [DecryptFile] does not overwrite.  After [EncryptFile] on a
    regular file at a clean path, with the source still in place (only
    [EncryptDirFiles] removes it), [DecryptFile] on the artifact
    authenticates and decrypts it, reads the source's name from the
    archive, and fails with EEXIST on creating it: the source, the
    artifact and everything else stay as they were. *)
Theorem DecryptFile_never_overwrites (path : pathname) (key : bytes) (w : world)
    perm t data new_file_path w1 :
  fs w !! path = Some (Regular perm t data) ->
  filepath_Join (filepath_Dir path) (filepath_Base path) = path ->
  (forall buf,
     tar_archive L {| hdr_Name := filepath_Base path;
                      hdr_Mode := Z.land perm os_ModePerm;
                      hdr_Size := Z.of_nat (length data);
                      hdr_ModTime := t |} data = Ok buf ->
     exists hdr', next_hdr (tar_read L buf) = Some hdr'
                  /\ next_err (tar_read L buf) = None
                  /\ hdr_Name hdr' = filepath_Base path) ->
  EncryptFile L path key w = (Returns new_file_path, w1) ->
  DecryptFile L new_file_path key w1
  = (Fails (os_PathError "open" path EEXIST), w1)
  /\ fs w1 !! path = Some (Regular perm t data).
Proof using hmac_size gzip_roundtrip.
  intros Hpath Hclean tar_name Henc.
  rewrite (EncryptFile_regular_run L hmac_size path key w perm t data Hpath) in Henc.
  cbv zeta in Henc.
  destruct (tar_archive L _ data) as [buf|e] eqn:Htar; [|discriminate].
  destruct (Encrypt L buf key (rand_Reader w)) as [[[E sig]|e] rnd'] eqn:HE;
    [|discriminate].
  pose proof (Encrypt_signature_matches L hmac_size _ _ _ _ _ _ HE) as Hsig.
  destruct (os_OpenFile _ excl_create 256 _) as [[f| | |] w0] eqn:Hopen;
    try discriminate.
  apply os_OpenFile_excl in Hopen as (-> & Hfree & ->). cbn [fs] in Hfree.
  destruct (_ <? _)%nat eqn:Hshort in Henc; [discriminate|].
  apply Nat.ltb_ge in Hshort. rewrite take_ge in Henc by lia.
  injection Henc as <- <-.
  set (new_file_path := filepath_Dir path ++ [sig]) in *.
  assert (Hne : new_file_path <> path) by congruence.
  set (artifact := Regular 256 (now w) E).
  set (w1 := {| fs := <[new_file_path := artifact]> (fs w) |}).
  assert (Hnew1 : fs w1 !! new_file_path = Some artifact)
    by (subst w1; cbn [fs]; apply lookup_insert_eq).
  assert (Hpath1 : fs w1 !! path = Some (Regular perm t data))
    by (subst w1; cbn [fs]; rewrite lookup_insert_ne by exact Hne; exact Hpath).
  split; [|exact Hpath1].
  destruct (tar_name _ eq_refl) as (hdr' & Hhdr & Hnext & Hname').
  assert (Hbase : filepath_Base new_file_path = sig) by apply filepath_Base_app.
  assert (Hdir : filepath_Dir new_file_path = filepath_Dir path)
    by apply filepath_Dir_app.
  unfold DecryptFile.
  rewrite Hbase, Hdir, Hsig. cbn [negb].
  unfold bind at 1. rewrite (os_Stat_regular w1 _ _ _ _ Hnew1).
  cbn [node_info node_Mode fi_Mode]. rewrite regular_mode_type. cbn [Z.eqb negb].
  unfold bind at 1. rewrite (ioutil_ReadFile_regular w1 _ _ _ _ Hnew1).
  unfold bind at 1, Decrypt_call.
  destruct (Encrypt_Ok L _ _ _ _ _ _ HE) as (_ & _ & _ & _ & _ & Hg).
  destruct (Decrypt_accepts L gzip_roundtrip _ _ _ _ _ sig _ HE) as [Hret Herr].
  { rewrite Hg. apply hex_DecodeString_EncodeToString. }
  rewrite Herr, Hret. change (default [] (Some buf)) with buf.
  unfold ret at 1. unfold bind at 1. rewrite Hnext, Hhdr. unfold ret at 1.
  rewrite Hname', Hclean.
  unfold bind at 1, os_OpenFile.
  match goal with |- context [negb (has_flag ?f os_O_CREATE && has_flag ?f os_O_EXCL)] =>
    change (negb (has_flag f os_O_CREATE && has_flag f os_O_EXCL)) with false end.
  cbn iota. rewrite Hpath1. reflexivity.
Qed.

End NoOverwrite.
(** ** The programs *)

Lemma list_byte_of_string_length (s : string) :
  length (list_byte_of_string s) = String.length s.
Proof.
  unfold list_byte_of_string. rewrite length_map.
  induction s as [|c s IH]; [reflexivity|].
  cbn [list_ascii_of_string String.length length]. f_equal. exact IH.
Qed.

Section ProgramFacts.

Variable L : GoLib.
Variable StdEncoding : Encoding.

Hypothesis scrypt_contract : forall password salt N r p keyLen,
  (1 < N)%Z -> Z.land N (N - 1) = 0%Z -> (0 < r)%Z -> (0 < p)%Z ->
  (r * p < 2 ^ 30)%Z -> (0 <= keyLen)%Z ->
  exists key, scrypt_Key L password salt N r p keyLen = (key, None)
              /\ length key = Z.to_nat keyLen.

Hypothesis hmac_size : forall key data, length (hmac_sha256 L key data) = 32.

Hypothesis gzip_roundtrip : forall level data,
  gzip_decompress L (gzip_compress L level data) = gzip_read data None.

(** The decoder reads back what the encoder wrote, and skips the line
    break [fmt.Println] puts after it. *)
Hypothesis base64_roundtrip : forall src,
  NewDecoder_ReadAll StdEncoding
    (list_byte_of_string (EncodeToString StdEncoding src +:+ newline)) None
  = (src, None).

(** X13.  [enc] piped into [dec].  With CRYP_KEY set (to anything, the
    empty string included), standard input read to its end and 16 random
    bytes to draw, [enc] exits normally having printed one line; [dec],
    started with the same CRYP_KEY and reading that line, writes exactly
    the bytes [enc] read, and exits normally. *)
Theorem dec_enc_pipe (pr : process) (rnd : bytes) (key : string) :
  os_LookupEnv pr "CRYP_KEY" = Some key ->
  Stdin_err pr = None ->
  16 <= length rnd ->
  exists line,
    enc_main L StdEncoding pr rnd = (line, exit_0, drop 16 rnd)
    /\ forall pr',
         os_LookupEnv pr' "CRYP_KEY" = Some key ->
         Stdin pr' = list_byte_of_string line ->
         Stdin_err pr' = None ->
         dec_main L StdEncoding pr' = (Stdin pr, exit_0).
Proof using scrypt_contract hmac_size gzip_roundtrip base64_roundtrip.
  intros Hkey Hin Hrnd.
  destruct (Encrypt_succeeds L scrypt_contract (Stdin pr) (list_byte_of_string key) rnd Hrnd)
    as (E & g & Henc).
  unfold enc_main. rewrite Hkey, Hin, Henc. cbn [app].
  eexists. split; [reflexivity|].
  intros pr' Hkey' Hin' Herr'.
  unfold dec_main. rewrite Hkey', Hin', Herr', base64_roundtrip.
  destruct (Encrypt_Ok L _ _ _ _ _ _ Henc) as (_ & _ & _ & _ & _ & Hg).
  assert (Hlen : length (list_byte_of_string g) = SignatureSize).
  { rewrite list_byte_of_string_length, Hg, hex_EncodeToString_length, hmac_size.
    reflexivity. }
  replace (length (list_byte_of_string g ++ E) <? SignatureSize)%nat with false
    by (symmetry; apply Nat.ltb_ge; rewrite length_app; lia).
  rewrite take_app_length' by (symmetry; exact Hlen).
  rewrite drop_app_length' by (symmetry; exact Hlen).
  rewrite string_of_list_byte_of_string.
  destruct (Decrypt_accepts L gzip_roundtrip _ _ _ _ g g _ Henc) as [Hret Herr].
  { rewrite Hg. apply hex_DecodeString_EncodeToString. }
  rewrite Herr, Hret. reflexivity.
Qed.

End ProgramFacts.

Section ProgramEndings.

Variable L : GoLib.
Variable StdEncoding : Encoding.

(** X14.  [dec] writes authenticated plaintext or nothing.  It ends
    normally or in [log.Fatal], and never panics.  When it ends normally,
    CRYP_KEY was set, standard input decoded without error to at least
    64 + 16 bytes, the first 64 spell in hex the HMAC of the rest under the
    secret, and what it wrote is what [Decrypt] returned for the rest.
    When it ends in [log.Fatal] it has written nothing. *)
Theorem dec_writes_authenticated (pr : process) (out : bytes) (e : ending) :
  dec_main L StdEncoding pr = (out, e) ->
  (e = exit_0
   /\ exists key input,
        os_LookupEnv pr "CRYP_KEY" = Some key
        /\ NewDecoder_ReadAll StdEncoding (Stdin pr) (Stdin_err pr) = (input, None)
        /\ SignatureSize + 16 <= length input
        /\ hex_DecodeString (string_of_list_byte (take SignatureSize input))
           = (hmac_sha256 L (list_byte_of_string key) (drop SignatureSize input), None)
        /\ run_ret (Decrypt L (drop SignatureSize input)
                      (string_of_list_byte (take SignatureSize input))
                      (list_byte_of_string key)) = Some out)
  \/ (out = [] /\ exists v, e = log_Fatal v).
Proof.
  unfold dec_main.
  destruct (os_LookupEnv pr "CRYP_KEY") as [key|] eqn:Hkey;
    [|intros [= <- <-]; right; eauto].
  destruct (NewDecoder_ReadAll StdEncoding (Stdin pr) (Stdin_err pr))
    as [input [err|]] eqn:Hdec; [intros [= <- <-]; right; eauto|].
  destruct (length input <? SignatureSize)%nat eqn:Hshort;
    [intros [= <- <-]; right; eauto|].
  apply Nat.ltb_ge in Hshort.
  destruct (run_err (Decrypt L _ _ _)) as [err|] eqn:Herr;
    [intros [= <- <-]; right; eauto|].
  intros [= <- <-]. left. split; [reflexivity|].
  destruct (Decrypt_no_error L _ _ _ Herr) as [out Hout].
  destruct (Decrypt_Some L _ _ _ _ Hout) as (Hlen & Hsig & _).
  exists key, input. rewrite Hout.
  split; [reflexivity|]. split; [reflexivity|].
  split; [rewrite length_drop in Hlen; lia|].
  split; [exact Hsig | reflexivity].
Qed.

Hypothesis hmac_size : forall key data, length (hmac_sha256 L key data) = 32.



End ProgramEndings.
(** ** What [EncryptDirFiles] leaves behind *)

Lemma well_formed_in_directories (m : gmap pathname node) :
  well_formed m = true -> in_directories m.
Proof.
  unfold well_formed. rewrite forallb_forall. intros Hall q n Hq Hne.
  specialize (Hall (q, n)). cbn [fst] in Hall.
  assert (Hin : In (q, n) (map_to_list m)).
  { apply list_elem_of_In, elem_of_map_to_list. exact Hq. }
  specialize (Hall Hin). destruct q as [|c q']; [congruence|].
  destruct (m !! filepath_Dir (c :: q')) as [[]|]; try discriminate. eauto.
Qed.

Lemma snoc_Dir (q : pathname) : q <> [] -> exists x, q = filepath_Dir q ++ [x].
Proof.
  intros Hne. destruct (exists_last Hne) as (l & x & ->).
  exists x. rewrite filepath_Dir_app. reflexivity.
Qed.

(** What lies below an entry lies below a directory. *)
Lemma in_directories_above (m : gmap pathname node) (p : pathname) :
  in_directories m ->
  forall r n, r <> [] -> m !! (p ++ r) = Some n ->
    exists perm t, m !! p = Some (Directory perm t).
Proof.
  intros Hwf r. induction r as [|x r IH] using rev_ind; intros n Hne Hq; [congruence|].
  destruct (Hwf _ _ Hq) as (perm & t & Hdir).
  { destruct p, r; discriminate. }
  rewrite app_assoc, filepath_Dir_app in Hdir.
  destruct r as [|y r'].
  - rewrite app_nil_r in Hdir. eauto.
  - apply (IH _ ltac:(discriminate) Hdir).
Qed.

Lemma children_elem (m : gmap pathname node) (dir : pathname) (x : string) (n : node) :
  m !! (dir ++ [x]) = Some n -> x ∈ children m dir.
Proof.
  intros Hq. unfold children. apply list_elem_of_omap.
  exists (dir ++ [x]). split.
  - apply list_elem_of_fmap. exists (dir ++ [x], n). split; [reflexivity|].
    apply elem_of_map_to_list. exact Hq.
  - rewrite last_snoc, filepath_Dir_app. rewrite decide_True by reflexivity. reflexivity.
Qed.

Lemma readDirNames_elem (dir : pathname) (w : world) (names : list string) w'
    (x : string) (n : node) :
  readDirNames dir w = (Returns names, w') ->
  fs w !! (dir ++ [x]) = Some n ->
  x ∈ names.
Proof.
  unfold readDirNames. intros Hrd Hq.
  destruct (fs w !! dir) as [[]|]; try discriminate.
  injection Hrd as <- <-.
  rewrite merge_sort_Permutation. exact (children_elem _ _ _ _ Hq).
Qed.

Lemma under_refl (p : pathname) : under p p.
Proof. exists []. symmetry. apply app_nil_r. Qed.

Lemma under_snoc (p : pathname) (x : string) (q : pathname) :
  under (p ++ [x]) q -> under p q.
Proof. intros [r ->]. exists (x :: r). rewrite <- app_assoc. reflexivity. Qed.

Lemma under_dec (p q : pathname) : under p q \/ ~ under p q.
Proof.
  destruct (decide (take (length p) q = p)) as [Heq|Hne].
  - left. exists (drop (length p) q). rewrite <- Heq at 1. symmetry. apply take_drop.
  - right. intros [r ->]. apply Hne. apply take_app_length.
Qed.

Lemma below_dec (names : list string) (p q : pathname) :
  (exists x, x ∈ names /\ under (p ++ [x]) q)
  \/ ~ (exists x, x ∈ names /\ under (p ++ [x]) q).
Proof.
  induction names as [|name names [IH|IH]].
  - right. intros (x & Hx & _). apply elem_of_nil in Hx. contradiction.
  - left. destruct IH as (x & Hx & Hu). exists x. split; [apply elem_of_cons; auto | exact Hu].
  - destruct (under_dec (p ++ [name]) q) as [Hu|Hu].
    + left. exists name. split; [apply elem_of_cons; auto | exact Hu].
    + right. intros (x & Hx & Hux). apply elem_of_cons in Hx as [->|Hx];
        [exact (Hu Hux) | apply IH; eauto].
Qed.

Section EncryptsAll.

Variable L : GoLib.

Hypothesis hmac_size : forall key data, length (hmac_sha256 L key data) = 32.

Variable key : bytes.

Lemma as_before_refl (w : world) (q : pathname) :
  as_before_or_artifact L key w w q.
Proof. left. reflexivity. Qed.

Lemma as_before_trans (w1 w2 w3 : world) (q : pathname) :
  as_before_or_artifact L key w1 w2 q ->
  as_before_or_artifact L key w2 w3 q ->
  as_before_or_artifact L key w1 w3 q.
Proof.
  intros [H12|[H1 (n & H2 & Hn)]] [H23|[H2' (n' & H3 & Hn')]].
  - left. congruence.
  - right. split; [congruence | eauto].
  - right. split; [exact H1|]. exists n. split; [congruence | exact Hn].
  - congruence.
Qed.

(** The walk function on what is not a regular file: nothing changes. *)
Lemma EncryptDirFiles_fn_skips (p : pathname) (n : node) err (w : world) :
  nonregular p n ->
  EncryptDirFiles_fn L key p (Some (node_info (filepath_Base p) n)) err w
  = (Returns tt, w).
Proof.
  intros Hn. unfold EncryptDirFiles_fn. cbn [node_info fi_Mode].
  rewrite (nonregular_mode_type n Hn). reflexivity.
Qed.

Lemma walk_post_skipped (p : pathname) (n : node) (w : world) :
  in_directories (fs w) ->
  fs w !! p = Some n ->
  nonregular p n ->
  (forall perm t, n <> Directory perm t) ->
  walk_post L key p w w.
Proof.
  intros Hwf Hp Hn Hnd. split; [exact Hwf|]. split.
  - intros q m [r ->] Hq. destruct r as [|x r].
    + rewrite app_nil_r in Hq. rewrite Hp in Hq. injection Hq as <-.
      left. exact Hn.
    + destruct (in_directories_above _ p Hwf (x :: r) m ltac:(discriminate) Hq)
        as (perm & t & Hdir).
      rewrite Hp in Hdir. injection Hdir as ->. exfalso. eapply Hnd. reflexivity.
  - intros q _. apply as_before_refl.
Qed.

(** The walk function on a regular file: an artifact next to it, and
    the file gone. *)
Lemma EncryptDirFiles_fn_regular (p : pathname) perm t data err (w w' : world) :
  in_directories (fs w) ->
  fs w !! p = Some (Regular perm t data) ->
  EncryptDirFiles_fn L key p
    (Some (node_info (filepath_Base p) (Regular perm t data))) err w
  = (Returns tt, w') ->
  walk_post L key p w w'.
Proof using hmac_size.
  intros Hwf Hp Hrun. unfold EncryptDirFiles_fn in Hrun.
  cbn [node_info fi_Mode node_Mode] in Hrun.
  rewrite regular_mode_type in Hrun. cbn [Z.eqb negb] in Hrun.
  unfold bind at 1 in Hrun.
  rewrite (EncryptFile_regular_run L hmac_size p key w perm t data Hp) in Hrun.
  cbv zeta in Hrun.
  destruct (tar_archive L _ data) as [buf|e]; [|discriminate].
  destruct (Encrypt L buf key (rand_Reader w)) as [[[E sig]|e] rnd'] eqn:HE;
    [|discriminate].
  destruct (Encrypt_Ok L _ _ _ _ _ _ HE) as (_ & _ & _ & _ & _ & Hsig).
  destruct (os_OpenFile _ excl_create 256 _) as [[f| | |] w0] eqn:Hopen;
    try discriminate.
  destruct (os_OpenFile_excl_parent _ _ _ _ _ Hopen) as (dperm & dt & Hparent).
  apply os_OpenFile_excl in Hopen as (-> & Hfree & ->).
  cbn [fs] in Hfree, Hparent. rewrite filepath_Dir_app in Hparent.
  destruct (_ <? _)%nat eqn:Hshort in Hrun; [discriminate|].
  apply Nat.ltb_ge in Hshort. rewrite take_ge in Hrun by lia.
  set (new_file_path := filepath_Dir p ++ [sig]) in *.
  assert (Hne : new_file_path <> p) by congruence.
  unfold bind at 1, os_Remove in Hrun. cbn [fs] in Hrun.
  rewrite lookup_insert_ne, Hp in Hrun by exact Hne.
  unfold bind, ret in Hrun. injection Hrun as <-.
  set (artifact := Regular 256 (now w) E).
  assert (Hart : is_artifact L key new_file_path artifact).
  { exists (now w), E. split; [reflexivity|].
    unfold new_file_path. rewrite filepath_Base_app. exact Hsig. }
  assert (Hdp : filepath_Dir p <> p) by (intros Heq; rewrite Heq in Hparent; congruence).
  assert (Hdn : filepath_Dir p <> new_file_path) by congruence.
  assert (Hlook : forall q, q <> p -> q <> new_file_path ->
            delete p (<[new_file_path := artifact]> (fs w)) !! q = fs w !! q).
  { intros q H1 H2. rewrite lookup_delete_ne, lookup_insert_ne; congruence. }
  assert (Hnew : delete p (<[new_file_path := artifact]> (fs w)) !! new_file_path
                 = Some artifact).
  { rewrite lookup_delete_ne, lookup_insert_eq; congruence. }
  split; [|split]; cbn [fs].
  - intros q n Hq Hq0.
    destruct (decide (q = p)) as [->|Hqp]; [rewrite lookup_delete_eq in Hq; discriminate|].
    destruct (decide (q = new_file_path)) as [->|Hqn].
    + unfold new_file_path at 1. rewrite filepath_Dir_app.
      rewrite Hlook by assumption. eauto.
    + rewrite Hlook in Hq by assumption.
      destruct (Hwf _ _ Hq Hq0) as (perm' & t' & Hdir).
      exists perm', t'. rewrite Hlook; [exact Hdir| |]; intros Heq;
        rewrite Heq in Hdir; congruence.
  - intros q m [r ->] Hq.
    destruct (decide (p ++ r = new_file_path)) as [Heq|Hqn].
    { rewrite Heq, Hnew in Hq. injection Hq as <-. right. rewrite Heq. exact Hart. }
    destruct r as [|x r].
    { rewrite app_nil_r, lookup_delete_eq in Hq. discriminate. }
    rewrite Hlook in Hq; [|intros Heq; apply (f_equal length) in Heq;
                           rewrite length_app in Heq; cbn in Heq; lia | exact Hqn].
    destruct (in_directories_above _ p Hwf (x :: r) m ltac:(discriminate) Hq)
      as (perm' & t' & Hdir). congruence.
  - intros q Hq.
    destruct (decide (q = new_file_path)) as [->|Hqn].
    + right. split; [exact Hfree|]. exists artifact. split; [exact Hnew | exact Hart].
    + left. apply Hlook; [|exact Hqn]. intros ->. apply Hq, under_refl.
Qed.

(** The walk leaves nothing to encrypt below the entry it started from. *)
Lemma walk_encrypts (fuel : nat) :
  forall p n w w',
    in_directories (fs w) ->
    fs w !! p = Some n ->
    walk fuel (EncryptDirFiles_fn L key) p (node_info (filepath_Base p) n) w
    = (Returns tt, w') ->
    walk_post L key p w w'.
Proof using hmac_size.
  induction fuel as [|fuel IH]; intros p n w w' Hwf Hp; cbn [walk]; [discriminate|].
  destruct (fi_IsDir (node_info (filepath_Base p) n)) eqn:Hdir; cbn [negb].
  - (* a directory *)
    apply directory_IsDir in Hdir as (perm & t & ->).
    unfold bind at 1, attempt, readDirNames at 1. rewrite Hp.
    assert (Hnames : forall x m, fs w !! (p ++ [x]) = Some m ->
                                 x ∈ merge_sort string_le (children (fs w) p)).
    { intros x m Hx. rewrite merge_sort_Permutation.
      exact (children_elem _ _ _ _ Hx). }
    revert Hnames. generalize (merge_sort string_le (children (fs w) p)).
    intros names Hnames.
    unfold bind at 1.
    rewrite EncryptDirFiles_fn_skips by (intros ? ? ?; discriminate).
    intros Hloop.
    assert (Heach :
      in_directories (fs w')
      /\ (forall q m, (exists x, x ∈ names /\ under (p ++ [x]) q) ->
                      fs w' !! q = Some m -> encrypted L key q m)
      /\ (forall q, ~ (exists x, x ∈ names /\ under (p ++ [x]) q) ->
                    as_before_or_artifact L key w w' q)).
    { clear Hnames Hp. revert w Hwf Hloop.
      induction names as [|name names IHnames]; intros w Hwf Hloop.
      - unfold ret in Hloop. injection Hloop as <-.
        split; [exact Hwf|]. split.
        + intros q m (x & Hx & _). apply elem_of_nil in Hx. contradiction.
        + intros q _. apply as_before_refl.
      - unfold bind at 1, attempt, os_Lstat at 1 in Hloop.
        destruct (fs w !! (p ++ [name])) as [n'|] eqn:Hchild.
        2:{ unfold bind at 1 in Hloop. cbn in Hloop. discriminate. }
        unfold bind at 1 in Hloop.
        destruct (walk fuel (EncryptDirFiles_fn L key) (p ++ [name])
                    (node_info (filepath_Base (p ++ [name])) n') w)
          as [[[]| | |] w1] eqn:Hwalk; try discriminate.
        destruct (IH _ _ _ _ Hwf Hchild Hwalk) as (Hwf1 & Hin1 & Hout1).
        destruct (IHnames _ Hwf1 Hloop) as (Hwf2 & Hin2 & Hout2).
        split; [exact Hwf2|]. split.
        + intros q m (x & Hx & Hq) Hm.
          destruct (below_dec names p q) as [Hrest|Hrest];
            [exact (Hin2 q m Hrest Hm)|].
          apply elem_of_cons in Hx as [->|Hx]; [|exfalso; apply Hrest; eauto].
          destruct (Hout2 q Hrest) as [Heq|(Hnone & m' & Hm' & Hart)].
          * rewrite Heq in Hm. exact (Hin1 q m Hq Hm).
          * rewrite Hm in Hm'. injection Hm' as <-. right. exact Hart.
        + intros q Hq.
          apply (as_before_trans w w1 w').
          * apply Hout1. intros Hu. apply Hq. exists name.
            split; [apply elem_of_cons; auto | exact Hu].
          * apply Hout2. intros (y & Hy & Hu). apply Hq. exists y.
            split; [apply elem_of_cons; auto | exact Hu]. }
    destruct Heach as (Hwf' & Hin & Hout).
    assert (Hroot : ~ (exists x, x ∈ names /\ under (p ++ [x]) p)).
    { intros (x & _ & r & Heq). apply (f_equal length) in Heq.
      rewrite !length_app in Heq. cbn in Heq. lia. }
    split; [exact Hwf'|]. split.
    + intros q m [r ->] Hm.
      destruct r as [|x r].
      * rewrite app_nil_r in Hm.
        destruct (Hout p Hroot) as [Heq|(Hnone & _)]; [|congruence].
        rewrite Heq, Hp in Hm. injection Hm as <-.
        left. intros ? ? ?. discriminate.
      * destruct (below_dec names p (p ++ x :: r))
          as [Hsome|Hnone]; [exact (Hin _ m Hsome Hm)|].
        destruct (Hout _ Hnone) as [Heq|(_ & m' & Hm' & Hart)].
        -- exfalso. apply Hnone. rewrite Heq in Hm.
           assert (Hx : exists mx, fs w !! (p ++ [x]) = Some mx).
           { destruct r as [|y r'] using rev_ind; [eauto|].
             destruct (in_directories_above (fs w) (p ++ [x]) Hwf (r' ++ [y]) m)
               as (px & tx & Hpx); [destruct r'; discriminate| |eauto].
             rewrite <- app_assoc. exact Hm. }
           destruct Hx as [mx Hx]. exists x. split; [exact (Hnames x mx Hx)|].
           exists r. rewrite <- app_assoc. reflexivity.
        -- rewrite Hm in Hm'. injection Hm' as <-. right. exact Hart.
    + intros q Hq. apply Hout. intros (x & _ & Hu). apply Hq.
      exact (under_snoc _ _ _ Hu).
  - (* not a directory *)
    assert (Hnd : forall perm t, n <> Directory perm t).
    { intros perm t ->.
      assert (H : fi_IsDir (node_info (filepath_Base p) (Directory perm t)) = true)
        by (apply directory_IsDir; eauto).
      congruence. }
    destruct n as [perm t data|perm t|target|kind perm].
    + apply EncryptDirFiles_fn_regular; assumption.
    + exfalso. eapply Hnd. reflexivity.
    + rewrite EncryptDirFiles_fn_skips by (intros ? ? ?; discriminate).
      intros [= <-]. eapply walk_post_skipped; eauto. intros ? ? ?; discriminate.
    + rewrite EncryptDirFiles_fn_skips by (intros ? ? ?; discriminate).
      intros [= <-]. eapply walk_post_skipped; eauto. intros ? ? ?; discriminate.
Qed.

(** X16.  What a successful [EncryptDirFiles] leaves behind.  On a tree
    in which every entry but the root lies in a directory, when the walk
    returns without error, no plaintext is left at or below the directory
    it was given: every regular file there is an artifact, with permission
    0400 and the lowercase hex HMAC of its contents under the secret as
    its name. *)
Theorem EncryptDirFiles_encrypts_all (dir : pathname) (w w' : world) :
  well_formed (fs w) = true ->
  EncryptDirFiles L dir key w = (Returns tt, w') ->
  forall rest perm t content,
    fs w' !! (dir ++ rest) = Some (Regular perm t content) ->
    perm = 256%Z
    /\ filepath_Base (dir ++ rest) = hex_EncodeToString (hmac_sha256 L key content)
    /\ sha256HexRegexp_MatchString (filepath_Base (dir ++ rest)) = true.
Proof using hmac_size.
  intros Hwf Hrun rest perm t content Hq.
  apply well_formed_in_directories in Hwf.
  unfold EncryptDirFiles, filepath_Walk, bind, attempt, os_Lstat in Hrun.
  destruct (fs w !! dir) as [n|] eqn:Hdir; [|discriminate].
  destruct (walk_encrypts _ _ _ _ _ Hwf Hdir Hrun) as (_ & Hin & _).
  destruct (Hin (dir ++ rest) _ (ex_intro _ rest eq_refl) Hq)
    as [Hn|(t' & E & [= -> -> ->] & Hname)].
  - exfalso. eapply Hn. reflexivity.
  - split; [reflexivity|]. split; [exact Hname|].
    rewrite Hname. apply hex_EncodeToString_matches, hmac_size.
Qed.

End EncryptsAll.

(** ** The small instance meets the contracts *)

Lemma toy_sha512_size (input : bytes) : length (sha512_Sum512 Toy.lib input) = 64.
Proof.
  cbn [sha512_Sum512 Toy.lib]. unfold Toy.sha512_Sum512.
  rewrite length_map, length_seq. reflexivity.
Qed.

Lemma toy_scrypt_contract (password salt : bytes) (N r p keyLen : Z) :
  (1 < N)%Z -> Z.land N (N - 1) = 0%Z -> (0 < r)%Z -> (0 < p)%Z ->
  (r * p < 2 ^ 30)%Z -> (0 <= keyLen)%Z ->
  exists key, scrypt_Key Toy.lib password salt N r p keyLen = (key, None)
              /\ length key = Z.to_nat keyLen.
Proof.
  intros HN Hpow _ _ Hrp _.
  cbn [scrypt_Key Toy.lib]. unfold Toy.scrypt_Key.
  rewrite Hpow.
  destruct (Z.leb_spec N 1) as [?|_]; [lia|].
  destruct (Z.leb_spec (2 ^ 30) (r * p)) as [?|_]; [lia|].
  cbn [Z.eqb negb orb].
  eexists. split; [reflexivity|].
  rewrite length_map, length_seq. reflexivity.
Qed.

Lemma toy_hmac_size (key data : bytes) : length (hmac_sha256 Toy.lib key data) = 32.
Proof.
  cbn [hmac_sha256 Toy.lib]. unfold Toy.hmac_sha256.
  rewrite length_map, length_seq. reflexivity.
Qed.

Lemma toy_gzip_roundtrip (level : Z) (data : bytes) :
  gzip_decompress Toy.lib (gzip_compress Toy.lib level data) = gzip_read data None.
Proof. reflexivity. Qed.

(** ** The theorems at concrete inputs *)

Lemma generate32ByteKey_spec_witness :
  length (sha512_Sum512 Toy.lib Example.key) = 64
  /\ scrypt_Key Toy.lib Example.key (sha512_Sum512 Toy.lib Example.key) 16384 8 1 32
     = (generate32ByteKey Toy.lib Example.key, None)
  /\ length (generate32ByteKey Toy.lib Example.key) = 32.
Proof.
  exact (generate32ByteKey_spec Toy.lib toy_sha512_size toy_scrypt_contract Example.key).
Defined.

Lemma Example_Encrypt :
  Encrypt Toy.lib Example.plaintext Example.key Example.entropy
  = (Ok (fst Example.envelope, snd Example.envelope), drop 16 Example.entropy).
Proof. vm_compute. reflexivity. Qed.

Lemma Decrypt_Encrypt_witness :
  run_ret (Decrypt Toy.lib (fst Example.envelope) (snd Example.envelope) Example.key)
  = Some Example.plaintext
  /\ run_err (Decrypt Toy.lib (fst Example.envelope) (snd Example.envelope) Example.key)
     = None.
Proof.
  exact (Decrypt_Encrypt Toy.lib toy_gzip_roundtrip _ _ _ _ _ _ Example_Encrypt).
Defined.

Lemma Decrypt_mac_mismatch_witness :
  let r := Decrypt Toy.lib (fst Example.envelope) Example.wrong_signature Example.key in
  run_err r = Some ErrSignatureMismatch
  /\ run_ret r = None
  /\ run_calls r = [call_hex_DecodeString; call_hmac]
  /\ ~ In call_XORKeyStream (run_calls r)
  /\ run_data r = fst Example.envelope
  /\ drop 16 (run_data r) = drop 16 (fst Example.envelope).
Proof.
  apply (Decrypt_mac_mismatch Toy.lib (fst Example.envelope) Example.wrong_signature
           Example.key (repeat x00 32)).
  - vm_compute. lia.
  - reflexivity.
  - vm_compute. discriminate.
Defined.

Lemma Encrypt_envelope_witness :
  let E := fst Example.envelope in
  let g := snd Example.envelope in
  let compressed := gzip_compress Toy.lib gzip_BestCompression Example.plaintext in
  let block := aes_encrypt_block Toy.lib (generate32ByteKey Toy.lib Example.key) in
  take 16 E = take 16 Example.entropy
  /\ length (take 16 E) = 16
  /\ drop 16 E = XORKeyStream (NewCFBEncrypter block (take 16 E)) compressed
  /\ length (drop 16 E) = length compressed
  /\ length E = 16 + length compressed
  /\ g = hex_EncodeToString (hmac_sha256 Toy.lib Example.key E)
  /\ length (hmac_sha256 Toy.lib Example.key E) = 32
  /\ String.length g = 64
  /\ sha256HexRegexp_MatchString g = true.
Proof.
  exact (Encrypt_envelope Toy.lib toy_hmac_size _ _ _ _ _ _ Example_Encrypt).
Defined.

(** The buffer is decrypted in place although decompression then fails. *)
Lemma Decrypt_buffer_witness :
  run_data (Decrypt Toy.lib Example.garbage Example.garbage_signature Example.key)
  = take 16 Example.garbage ++ [x13; x7f; x5b; xa7]
  /\ run_err (Decrypt Toy.lib Example.garbage Example.garbage_signature Example.key)
     = Some (lib_error "gzip" "invalid header").
Proof.
  destruct (Decrypt_buffer Toy.lib toy_scrypt_contract Example.garbage
              Example.garbage_signature Example.key
              (hmac_sha256 Toy.lib Example.key Example.garbage))
    as [Hok _].
  - vm_compute. lia.
  - vm_compute. reflexivity.
  - destruct (Hok eq_refl) as (Hdata & Hbad & _). split.
    + rewrite Hdata. vm_compute. reflexivity.
    + apply (Hbad (lib_error "gzip" "invalid header")). vm_compute. reflexivity.
Defined.

(** C6 fails as stated.  Flipping bit 6 of the signature's first character
    turns "d" into "$": [Decrypt] fails with [hex.InvalidByteError], not
    with the signature-mismatch error.  Flipping bit 5 turns it into "D":
    [Decrypt] succeeds and returns the plaintext.  Neither outcome depends
    on the instance: [hex.DecodeString] runs before anything else. *)
Lemma flipped_signature_counterexample :
  Encrypt Toy.lib Example.plaintext Example.key Example.entropy
  = (Ok (fst Example.envelope, snd Example.envelope), drop 16 Example.entropy)
  /\ run_err (Decrypt Toy.lib (fst Example.envelope)
                (flip_bit_in_string 0 6 (snd Example.envelope)) Example.key)
     = Some (hex_InvalidByteError "$")
  /\ run_ret (Decrypt Toy.lib (fst Example.envelope)
                (flip_bit_in_string 0 5 (snd Example.envelope)) Example.key)
     = Some Example.plaintext
  /\ run_err (Decrypt Toy.lib (fst Example.envelope)
                (flip_bit_in_string 0 5 (snd Example.envelope)) Example.key)
     = None.
Proof. vm_compute. repeat split. Qed.

(** The three outcomes of a flipped signature bit and the outcome of a
    flipped envelope bit, on the example. *)
Lemma Decrypt_one_bit_flipped_witness :
  let E := fst Example.envelope in
  let g := snd Example.envelope in
  (let r := Decrypt Toy.lib (flip_bit_at 17 0 E) g Example.key in
   run_err r = Some ErrSignatureMismatch /\ run_ret r = None)
  /\ (let r := Decrypt Toy.lib E (flip_bit_in_string 0 6 g) Example.key in
      run_err r = Some (hex_InvalidByteError "$") /\ run_ret r = None)
  /\ (let r := Decrypt Toy.lib E (flip_bit_in_string 0 5 g) Example.key in
      run_ret r = Some Example.plaintext /\ run_err r = None)
  /\ (let r := Decrypt Toy.lib E (flip_bit_in_string 0 0 g) Example.key in
      run_err r = Some ErrSignatureMismatch /\ run_ret r = None).
Proof.
  pose proof (fun i k => Decrypt_one_bit_flipped Toy.lib toy_gzip_roundtrip
                _ _ _ _ _ _ i k Example_Encrypt) as H.
  split; [|split; [|split]].
  - apply (H 17 0); [lia | vm_compute; discriminate].
  - exact (proj2 (H 0 6 ltac:(lia)) "d"%char eq_refl).
  - exact (proj2 (H 0 5 ltac:(lia)) "d"%char eq_refl).
  - exact (proj2 (H 0 0 ltac:(lia)) "d"%char eq_refl).
Defined.

Lemma Example_notes :
  fs Example.tree !! Example.notes = Some (Regular 420 1000 Example.plaintext).
Proof. vm_compute. reflexivity. Qed.

(** /d/notes.txt encrypted: the artifact is the one new entry. *)
Lemma EncryptFile_creates_artifact_witness :
  fst (EncryptFile Toy.lib Example.notes Example.key Example.tree)
  = Returns Example.artifact
  /\ fs Example.tree !! Example.artifact = None
  /\ fs (snd (EncryptFile Toy.lib Example.notes Example.key Example.tree))
       !! Example.artifact
     = Some (Regular 256 2000 Example.artifact_bytes)
  /\ fs (snd (EncryptFile Toy.lib Example.notes Example.key Example.tree))
       !! Example.notes
     = Some (Regular 420 1000 Example.plaintext).
Proof.
  pose proof (EncryptFile_creates_artifact Toy.lib toy_hmac_size
                Example.notes Example.key Example.tree 420 1000 Example.plaintext
                _ _ Example_notes (surjective_pairing _)) as (Hframe & Hnew & _).
  assert (Hret : fst (EncryptFile Toy.lib Example.notes Example.key Example.tree)
                 = Returns Example.artifact) by (vm_compute; reflexivity).
  destruct (Hnew _ Hret) as (buf & E & sig & _ & _ & _ & _ & _ & Hfree & Hfs).
  split; [exact Hret|]. split; [exact Hfree|]. split.
  - vm_compute. reflexivity.
  - apply Hframe, Example_notes.
Defined.

Lemma Example_DecryptFile :
  DecryptFile Toy.lib Example.artifact Example.key Example.encrypted_tree
  = (Returns Example.notes,
     snd (DecryptFile Toy.lib Example.artifact Example.key Example.encrypted_tree)).
Proof.
  etransitivity; [apply surjective_pairing|].
  f_equal. all: vm_compute; reflexivity.
Qed.

(** C9 fails as stated.  [DecryptFile] restores /d/notes.txt from the
    artifact and returns; the artifact is still there, with the permission
    and the bytes it had. *)
Lemma DecryptFile_artifact_counterexample :
  fst (DecryptFile Toy.lib Example.artifact Example.key Example.encrypted_tree)
  = Returns Example.notes
  /\ fs (snd (DecryptFile Toy.lib Example.artifact Example.key Example.encrypted_tree))
       !! Example.notes
     = Some (Regular 420 1000 Example.plaintext)
  /\ fs (snd (DecryptFile Toy.lib Example.artifact Example.key Example.encrypted_tree))
       !! Example.artifact
     = Some (Regular 256 2000 Example.artifact_bytes).
Proof. vm_compute. repeat split. Qed.

(** The artifact outlives [DecryptFile] and is removed by the walk's
    function, on the example. *)
Lemma DecryptFile_keeps_artifact_witness :
  (exists n,
     fs Example.encrypted_tree !! Example.artifact = Some n
     /\ fs (snd (DecryptFile Toy.lib Example.artifact Example.key Example.encrypted_tree))
          !! Example.artifact = Some n)
  /\ (exists w2,
        DecryptDirFiles_fn Toy.lib Example.key Example.artifact
          (Some (node_info (filepath_Base Example.artifact)
                   (Regular 256 2000 Example.artifact_bytes)))
          None Example.encrypted_tree
        = (Returns tt, w2)
        /\ fs w2 !! Example.artifact = None).
Proof.
  destruct (DecryptFile_keeps_artifact Toy.lib _ _ _ _ _ Example_DecryptFile)
    as [Hkept Hremoved].
  split; [exact Hkept|].
  apply Hremoved. reflexivity.
Defined.

(** The artifact of the empty payload: [DecryptFile] panics. *)
Lemma DecryptFile_empty_archive_witness :
  DecryptFile Toy.lib Example.empty_artifact Example.key Example.empty_artifact_tree
  = (Panics nil_dereference, Example.empty_artifact_tree).
Proof.
  apply (DecryptFile_empty_archive Toy.lib Example.empty_artifact Example.key
           Example.empty_artifact_tree 256 1000 (fst Example.empty_envelope) []).
  - vm_compute. reflexivity.
  - vm_compute. reflexivity.
  - vm_compute. reflexivity.
  - vm_compute. reflexivity.
  - reflexivity.
  - reflexivity.
Defined.

(** C8, as the code has it.  /d holds a symbolic link named like an
    artifact and pointing at one.  [DecryptDirFiles] on /d returns without
    error, having read and decrypted the artifact through the link,
    restored /d/notes.txt from it, and deleted the link. *)
Theorem DecryptDirFiles_follows_symlink :
  fs Example.linked_tree !! Example.link = Some (Symlink Example.stored)
  /\ fst (DecryptDirFiles Toy.lib ["d"] Example.key Example.linked_tree) = Returns tt
  /\ fs (snd (DecryptDirFiles Toy.lib ["d"] Example.key Example.linked_tree))
       !! Example.link = None
  /\ fs (snd (DecryptDirFiles Toy.lib ["d"] Example.key Example.linked_tree))
       !! Example.notes = Some (Regular 420 1000 Example.plaintext)
  /\ fs (snd (DecryptDirFiles Toy.lib ["d"] Example.key Example.linked_tree))
       !! Example.stored = Some (Regular 256 1000 Example.artifact_bytes).
Proof. vm_compute. repeat split. Qed.

Lemma EncryptDirFiles_keeps_nonregular_witness :
  fs (snd (EncryptDirFiles Toy.lib [] Example.key Example.linked_tree)) !! Example.link
  = Some (Symlink Example.stored).
Proof.
  apply (EncryptDirFiles_keeps_nonregular Toy.lib toy_hmac_size [] Example.key
           Example.linked_tree _ _ (surjective_pairing _)).
  - vm_compute. reflexivity.
  - intros perm t content. discriminate.
Defined.

Lemma DecryptDirFiles_keeps_other_files_witness :
  fs (snd (DecryptDirFiles Toy.lib [] Example.key Example.mixed_tree)) !! Example.plain
  = Some (Regular 420 5 Example.plaintext).
Proof.
  apply (DecryptDirFiles_keeps_other_files Toy.lib [] Example.key
           Example.mixed_tree _ _ (surjective_pairing _)).
  - vm_compute. reflexivity.
  - right. vm_compute. reflexivity.
Defined.

Lemma DecryptFile_rejects_renamed_witness :
  DecryptFile Toy.lib Example.renamed Example.key Example.renamed_tree
  = (Fails ErrSignatureMismatch, Example.renamed_tree).
Proof.
  apply (DecryptFile_rejects_renamed Toy.lib Example.renamed Example.key
           Example.renamed_tree 256 1000 Example.artifact_bytes (repeat x00 32)).
  - vm_compute. reflexivity.
  - vm_compute. reflexivity.
  - vm_compute. lia.
  - reflexivity.
  - vm_compute. discriminate.
Defined.


Lemma walks_end_witness :
  ran_out (fst (EncryptDirFiles Toy.lib [] Example.key Example.linked_tree)) = false
  /\ ran_out (fst (DecryptDirFiles Toy.lib [] Example.key Example.linked_tree)) = false.
Proof. exact (walks_end Toy.lib toy_hmac_size [] Example.key Example.linked_tree). Defined.

(** ** The stand-in encoding meets its contract *)

Lemma list_byte_of_string_app (s1 s2 : string) :
  list_byte_of_string (s1 +:+ s2) = list_byte_of_string s1 ++ list_byte_of_string s2.
Proof.
  induction s1 as [|c s1 IH]; [reflexivity|].
  change (String c s1 +:+ s2) with (String c (s1 +:+ s2)).
  change (list_byte_of_string (String c (s1 +:+ s2)))
    with (byte_of_ascii c :: list_byte_of_string (s1 +:+ s2)).
  rewrite IH. reflexivity.
Qed.

Lemma hex_text_has_no_newline (src : bytes) :
  List.filter (fun b => negb (ToyEncoding.is_newline b))
              (list_byte_of_string (hex_EncodeToString src))
  = list_byte_of_string (hex_EncodeToString src).
Proof.
  induction src as [|v src IH]; [reflexivity|].
  cbn [hex_EncodeToString].
  change (list_byte_of_string (String ?a (String ?b ?s)))
    with (byte_of_ascii a :: byte_of_ascii b :: list_byte_of_string s).
  cbn [List.filter].
  replace (negb (ToyEncoding.is_newline
                   (byte_of_ascii (hex_digit (N.shiftr (Byte.to_N v) 4))))) with true
    by (destruct v; reflexivity).
  replace (negb (ToyEncoding.is_newline
                   (byte_of_ascii (hex_digit (N.land (Byte.to_N v) 15))))) with true
    by (destruct v; reflexivity).
  rewrite IH. reflexivity.
Qed.

Lemma toy_base64_roundtrip (src : bytes) :
  NewDecoder_ReadAll ToyEncoding.StdEncoding
    (list_byte_of_string (EncodeToString ToyEncoding.StdEncoding src +:+ newline)) None
  = (src, None).
Proof.
  cbn [NewDecoder_ReadAll EncodeToString ToyEncoding.StdEncoding].
  unfold ToyEncoding.NewDecoder_ReadAll.
  rewrite list_byte_of_string_app, List.filter_app, hex_text_has_no_newline.
  change (List.filter _ (list_byte_of_string newline)) with (@nil byte).
  rewrite app_nil_r, string_of_list_byte_of_string, hex_DecodeString_EncodeToString.
  reflexivity.
Qed.

(** ** The further theorems at concrete inputs *)

Lemma Decrypt_authenticates_witness :
  16 <= length (fst Example.envelope)
  /\ hex_DecodeString (snd Example.envelope)
     = (hmac_sha256 Toy.lib Example.key (fst Example.envelope), None)
  /\ gzip_decompress Toy.lib
       (XORKeyStream
          (NewCFBDecrypter
             (aes_encrypt_block Toy.lib (generate32ByteKey Toy.lib Example.key))
             (take 16 (fst Example.envelope)))
          (drop 16 (fst Example.envelope)))
     = gzip_read Example.plaintext
         (run_err (Decrypt Toy.lib (fst Example.envelope) (snd Example.envelope)
                     Example.key)).
Proof.
  apply (Decrypt_authenticates Toy.lib (fst Example.envelope) (snd Example.envelope)
           Example.key Example.plaintext).
  vm_compute. reflexivity.
Defined.


Lemma Encrypt_entropy_witness :
  Encrypt Toy.lib Example.plaintext Example.key [] = (Err io_EOF, [])
  /\ Encrypt Toy.lib Example.plaintext Example.key (take 15 Example.entropy)
     = (Err io_ErrUnexpectedEOF, [])
  /\ exists E sig,
       Encrypt Toy.lib Example.plaintext Example.key Example.entropy
       = (Ok (E, sig), drop 16 Example.entropy)
       /\ take 16 E = take 16 Example.entropy.
Proof.
  pose proof (Encrypt_entropy Toy.lib toy_scrypt_contract Example.plaintext Example.key)
    as H.
  split; [|split].
  - apply (H []). reflexivity.
  - apply (H (take 15 Example.entropy)). vm_compute. lia.
  - apply (H Example.entropy). vm_compute. lia.
Defined.

Lemma codecs_refuse_nonregular_witness :
  EncryptFile Toy.lib Example2.hex_dir Example.key Example2.hex_dir_tree
  = (Fails ErrInvalidFileType, Example2.hex_dir_tree)
  /\ DecryptFile Toy.lib Example2.hex_dir Example.key Example2.hex_dir_tree
     = (Fails ErrInvalidFileType, Example2.hex_dir_tree).
Proof.
  destruct (codecs_refuse_nonregular Toy.lib Example2.hex_dir Example.key
              Example2.hex_dir_tree Example2.hex_dir (Directory 493 0))
    as [Henc Hdec].
  - vm_compute. reflexivity.
  - intros perm t content. discriminate.
  - split; [exact Henc|]. apply Hdec. vm_compute. reflexivity.
Defined.

Lemma walks_panic_on_missing_root_witness :
  EncryptDirFiles Toy.lib ["nowhere"] Example.key Example.tree
  = (Panics nil_dereference, Example.tree)
  /\ DecryptDirFiles Toy.lib ["nowhere"] Example.key Example.tree
     = (Panics nil_dereference, Example.tree).
Proof.
  apply (walks_panic_on_missing_root Toy.lib ["nowhere"] Example.key Example.tree).
  vm_compute. reflexivity.
Defined.

Lemma Example_EncryptFile_link :
  EncryptFile Toy.lib Example.link Example.key Example.linked_tree
  = (Returns Example2.link_artifact,
     snd (EncryptFile Toy.lib Example.link Example.key Example.linked_tree)).
Proof.
  etransitivity; [apply surjective_pairing|].
  f_equal. all: vm_compute; reflexivity.
Qed.

Lemma EncryptFile_follows_links_witness :
  exists buf E sig,
    tar_archive Toy.lib
      {| hdr_Name := filepath_Base Example.link;
         hdr_Mode := Z.land 256 os_ModePerm;
         hdr_Size := Z.of_nat (length Example.artifact_bytes);
         hdr_ModTime := 1000 |} Example.artifact_bytes = Ok buf
    /\ Encrypt Toy.lib buf Example.key (rand_Reader Example.linked_tree)
       = (Ok (E, sig),
          rand_Reader (snd (EncryptFile Toy.lib Example.link Example.key
                              Example.linked_tree)))
    /\ Example2.link_artifact = filepath_Dir Example.link ++ [sig]
    /\ fs Example.linked_tree !! Example2.link_artifact = None
    /\ fs (snd (EncryptFile Toy.lib Example.link Example.key Example.linked_tree))
         !! Example2.link_artifact
       = Some (Regular 256 (now Example.linked_tree) E)
    /\ (forall p, p <> Example2.link_artifact ->
          fs (snd (EncryptFile Toy.lib Example.link Example.key Example.linked_tree)) !! p
          = fs Example.linked_tree !! p).
Proof.
  apply (EncryptFile_follows_links Toy.lib toy_hmac_size Example.link Example.key
           Example.linked_tree Example.stored 256 1000 Example.artifact_bytes
           Example2.link_artifact _).
  - vm_compute. reflexivity.
  - exact Example_EncryptFile_link.
Defined.

Lemma Example_EncryptFile_notes :
  EncryptFile Toy.lib Example.notes Example.key Example.tree
  = (Returns Example.artifact, Example2.both_tree).
Proof.
  etransitivity; [apply surjective_pairing|].
  f_equal. all: vm_compute; reflexivity.
Qed.

Lemma DecryptFile_never_overwrites_witness :
  DecryptFile Toy.lib Example.artifact Example.key Example2.both_tree
  = (Fails (os_PathError "open" Example.notes EEXIST), Example2.both_tree)
  /\ fs Example2.both_tree !! Example.notes = Some (Regular 420 1000 Example.plaintext).
Proof.
  apply (DecryptFile_never_overwrites Toy.lib toy_hmac_size toy_gzip_roundtrip
           Example.notes Example.key Example.tree 420 1000 Example.plaintext
           Example.artifact Example2.both_tree).
  - vm_compute. reflexivity.
  - vm_compute. reflexivity.
  - intros buf [= <-]. eexists. vm_compute. repeat split.
  - exact Example_EncryptFile_notes.
Defined.

Lemma dec_enc_pipe_witness :
  enc_main Toy.lib ToyEncoding.StdEncoding Programs.enc_process Example.entropy
  = (Programs.enc_output, exit_0, drop 16 Example.entropy)
  /\ dec_main Toy.lib ToyEncoding.StdEncoding Programs.dec_process
     = (Example.plaintext, exit_0).
Proof.
  destruct (dec_enc_pipe Toy.lib ToyEncoding.StdEncoding toy_scrypt_contract
              toy_hmac_size toy_gzip_roundtrip toy_base64_roundtrip
              Programs.enc_process Example.entropy "key")
    as (line & Henc & Hdec).
  - vm_compute. reflexivity.
  - reflexivity.
  - vm_compute. lia.
  - assert (Hline : line = Programs.enc_output).
    { assert (H : fst (fst (enc_main Toy.lib ToyEncoding.StdEncoding
                              Programs.enc_process Example.entropy))
                  = Programs.enc_output) by (vm_compute; reflexivity).
      rewrite Henc in H. exact H. }
    subst line. split; [exact Henc|].
    apply (Hdec Programs.dec_process).
    + vm_compute. reflexivity.
    + reflexivity.
    + reflexivity.
Defined.

Lemma Example_dec :
  dec_main Toy.lib ToyEncoding.StdEncoding Programs.dec_process
  = (Example.plaintext, exit_0).
Proof. vm_compute. reflexivity. Qed.

Lemma dec_writes_authenticated_witness :
  exists key input,
    os_LookupEnv Programs.dec_process "CRYP_KEY" = Some key
    /\ NewDecoder_ReadAll ToyEncoding.StdEncoding (Stdin Programs.dec_process)
         (Stdin_err Programs.dec_process) = (input, None)
    /\ SignatureSize + 16 <= length input
    /\ hex_DecodeString (string_of_list_byte (take SignatureSize input))
       = (hmac_sha256 Toy.lib (list_byte_of_string key) (drop SignatureSize input),
          None)
    /\ run_ret (Decrypt Toy.lib (drop SignatureSize input)
                  (string_of_list_byte (take SignatureSize input))
                  (list_byte_of_string key)) = Some Example.plaintext.
Proof.
  destruct (dec_writes_authenticated Toy.lib ToyEncoding.StdEncoding
              Programs.dec_process Example.plaintext exit_0 Example_dec)
    as [[_ H]|[H _]]; [exact H | discriminate H].
Defined.


Lemma Example_EncryptDirFiles :
  EncryptDirFiles Toy.lib ["d"] Example.key Example.tree
  = (Returns tt, Example.encrypted_tree).
Proof.
  etransitivity; [apply surjective_pairing|].
  f_equal. all: vm_compute; reflexivity.
Qed.

Lemma EncryptDirFiles_encrypts_all_witness :
  fs Example.encrypted_tree !! Example.artifact
  = Some (Regular 256 2000 Example.artifact_bytes)
  /\ filepath_Base Example.artifact
     = hex_EncodeToString (hmac_sha256 Toy.lib Example.key Example.artifact_bytes)
  /\ sha256HexRegexp_MatchString (filepath_Base Example.artifact) = true.
Proof.
  assert (Hart : fs Example.encrypted_tree !! (["d"] ++ [filepath_Base Example.artifact])
                 = Some (Regular 256 2000 Example.artifact_bytes))
    by (vm_compute; reflexivity).
  split; [exact Hart|].
  exact (proj2 (EncryptDirFiles_encrypts_all Toy.lib toy_hmac_size Example.key ["d"]
                  Example.tree Example.encrypted_tree eq_refl Example_EncryptDirFiles
                  [filepath_Base Example.artifact] 256 2000 Example.artifact_bytes Hart)).
Defined.
